(** * Bounded web crawl: [tasks/web_scrape.py]

    A shallow embedding of [execute] from
    [server/python-agent/tasks/web_scrape.py] and the properties of its
    crawl loop: the visited set, the FIFO frontier, link resolution, the
    page budget and the handling of failures.

    The network and the HTML parser are the environment of the program.
    They are gathered in a [world]: what [urlparse] answers for a string and
    what [requests.get] followed by [BeautifulSoup] answers for a URL.  The
    crawl asks for a URL only when it is not yet in [visited], so one crawl
    sees at most one answer per URL and a function of the URL describes all
    that it observes.  [execution_time] is wall-clock time and is left out
    of the results. *)

From stdpp Require Import gmap strings list sorting pretty.
From Stdlib Require Import ZArith Lia Wellfounded Ascii.

Open Scope Z_scope.

Set Warnings "-clear-no-such-hyp".

(** ** Data *)

(** The two fields of [urlparse(url)] that the program reads. *)
Record ParseResult := { scheme : string; netloc : string }.

(** A parsed document, as far as the program looks at it:
    [soup.select(selector)] with [get_text().strip()] already taken of each
    element ([None] when [select] raises, as it does on a selector that is
    not valid CSS), and the [href] of each [soup.find_all('a', href=True)],
    in document order. *)
Record BeautifulSoup := {
  select : string → option (list string);
  find_all_a_href : list string
}.

(** What [requests.get(url, timeout=10)] does, followed by
    [BeautifulSoup(response.text, 'html.parser')]: it raises, a
    [requests.exceptions.RequestException] (connection error, timeout, too
    many redirects) or something else (urllib3's [LocationParseError] on a
    host such as [x..test]), or it returns the final response, with its
    status code and its parsed body ([None] when the parser raises). *)
Inductive get_outcome :=
| GetRaises (request_exception : bool)
| GetReturns (status_code : Z) (parsed : option BeautifulSoup).

(** Lines 75-78 as the loop sees them: a [RequestException], which line
    111 catches; another exception, which it does not catch; or the parsed
    body. *)
Inductive response :=
| RequestException
| OtherException
| Response (soup : BeautifulSoup).

Record world := {
  urlparse : string → option ParseResult;   (* [None]: raises ValueError *)
  http_get : string → get_outcome
}.

(** [response.raise_for_status()] raises an [HTTPError], which is a
    [RequestException], for a status from 400 to 599 and for no other:
    a final 1xx or 3xx answer is treated like a 2xx one. *)
Definition requests_get (w : world) (url : string) : response :=
  match http_get w url with
  | GetRaises true => RequestException
  | GetRaises false => OtherException
  | GetReturns status_code parsed =>
      if (400 <=? status_code) && (status_code <? 600) then RequestException
      else match parsed with
           | Some soup => Response soup
           | None => OtherException
           end
  end.

(** [int(v)] of a value that is present: the integer, or a [ValueError]
    or [TypeError]. *)
Inductive int_arg :=
| IntValue (z : Z)
| IntRaises.
Coercion IntValue : Z >-> int_arg.

(** [params]: each key may be absent. *)
Record params := {
  p_url : option string;
  p_depth : option int_arg;
  p_max_pages : option int_arg;
  p_selectors : option (list (string * string))   (* [selectors.items()] *)
}.

(** [int(params.get(key, fallback))]; [None] when [int] raises. *)
Definition get_int (v : option int_arg) (fallback : Z) : option Z :=
  match v with
  | None => Some fallback
  | Some (IntValue z) => Some z
  | Some IntRaises => None
  end.

Definition param_url (p : params) : string :=
  default "https://example.com"%string (p_url p).
Definition param_depth (p : params) : Z := default 1 (get_int (p_depth p) 1).
Definition param_max_pages (p : params) : Z :=
  default 5 (get_int (p_max_pages p) 5).
Definition param_selectors (p : params) : list (string * string) :=
  default [("title", "title"); ("content", "p")]%string (p_selectors p).

Record page_data := {
  pd_url : string;
  pd_depth : Z;
  pd_extracted : gmap string (list string)
}.

(** The [results] dictionary; ['success': True] is the constructor
    [Results] below. *)
Record results := {
  pages_scraped : Z;
  data : list page_data;
  urls_visited : list string
}.

(** The three local variables that the loop updates. *)
Record state := {
  st_results : results;
  visited : gset string;
  to_visit : list (string * Z)
}.

(** Exceptions other than [RequestException] that the loop body can raise. *)
Inductive exn :=
| IndexError             (* [pop(0)] of an empty list *)
| SelectorSyntaxError    (* [soup.select] *)
| UncaughtFetchError.    (* [requests.get] or [BeautifulSoup], see [response] *)

Inductive result (A : Type) :=
| Ok (a : A)
| Raise (e : exn).
Arguments Ok {A} a.
Arguments Raise {A} e.

(** What [execute] returns. *)
Inductive outcome :=
| Results (r : results)               (* 'success': True *)
| ValidationError (error : string)    (* 'error_type': 'validation_error' *)
| ExecutionError.                     (* 'error_type': 'execution_error' *)

(** ** The loop body *)

(** [for key, selector in selectors.items(): extracted[key] = ...] *)
Fixpoint extract (soup : BeautifulSoup) (items : list (string * string))
    (extracted : gmap string (list string)) : result (gmap string (list string)) :=
  match items with
  | [] => Ok extracted
  | (key, selector) :: items =>
      match select soup selector with
      | None => Raise SelectorSyntaxError
      | Some texts => extract soup items (<[key := texts]> extracted)
      end
  end.

(** Lines 100-106: an href that starts with neither [http://] nor
    [https://] is prefixed with the scheme and host of [parsed_url]. *)
Definition resolve (parsed_url : ParseResult) (href : string) : string :=
  if String.prefix "http://" href || String.prefix "https://" href then href
  else
    let base_url := scheme parsed_url +:+ "://" +:+ netloc parsed_url in
    if String.prefix "/" href then base_url +:+ href
    else base_url +:+ "/" +:+ href.

(** Lines 97-109: [for link in links: ... if href not in visited:
    to_visit.append((href, current_depth + 1))]. *)
Definition enqueue_links (parsed_url : ParseResult) (visited : gset string)
    (current_depth : Z) (links : list string) (to_visit : list (string * Z))
    : list (string * Z) :=
  fold_left
    (fun to_visit href =>
       let href := resolve parsed_url href in
       if decide (href ∈ visited) then to_visit
       else to_visit ++ [(href, current_depth + 1)])
    links to_visit.

Definition append_url (r : results) (u : string) : results :=
  {| pages_scraped := pages_scraped r;
     data := data r;
     urls_visited := urls_visited r ++ [u] |}.

Definition append_page (r : results) (pd : page_data) : results :=
  {| pages_scraped := pages_scraped r + 1;
     data := data r ++ [pd];
     urls_visited := urls_visited r |}.

Section Loop.

Context (w : world) (selectors : list (string * string))
        (depth max_pages : Z) (parsed_url : ParseResult).

(** [while to_visit and results['pages_scraped'] < max_pages] *)
Definition cond (st : state) : bool :=
  match to_visit st with [] => false | _ :: _ => true end
  && (pages_scraped (st_results st) <? max_pages).

(** Lines 65-113, one iteration. *)
Definition body (st : state) : result state :=
  match to_visit st with
  | [] => Raise IndexError
  | (current_url, current_depth) :: rest =>
      if decide (current_url ∈ visited st) then
        Ok {| st_results := st_results st;
              visited := visited st;
              to_visit := rest |}
      else
        let visited' := {[current_url]} ∪ visited st in
        let results' := append_url (st_results st) current_url in
        match requests_get w current_url with
        | RequestException =>
            Ok {| st_results := results';
                  visited := visited';
                  to_visit := rest |}
        | OtherException => Raise UncaughtFetchError
        | Response soup =>
            match extract soup selectors ∅ with
            | Raise e => Raise e
            | Ok extracted =>
                let page :=
                  {| pd_url := current_url;
                     pd_depth := current_depth;
                     pd_extracted := extracted |} in
                Ok {| st_results := append_page results' page;
                      visited := visited';
                      to_visit :=
                        if current_depth <? depth then
                          enqueue_links parsed_url visited' current_depth
                            (find_all_a_href soup) rest
                        else rest |}
            end
        end
  end.

(** *** Termination

    The page budget that is left never grows, and when it stays the
    frontier loses its head. *)
Definition measure (st : state) : nat * nat :=
  (Z.to_nat (max_pages - pages_scraped (st_results st)),
   length (to_visit st)).

Definition lex_lt (a b : nat * nat) : Prop :=
  (a.1 < b.1)%nat ∨ (a.1 = b.1 ∧ (a.2 < b.2)%nat).

Definition smaller (st' st : state) : Prop :=
  lex_lt (measure st') (measure st).

Lemma lex_lt_wf : well_founded lex_lt.
Proof.
  intros [a b]. revert b.
  induction (lt_wf a) as [a _ IHa]. intros b.
  induction (lt_wf b) as [b _ IHb].
  constructor. intros [a' b'] [H|[H1 H2]]; simpl in *.
  - apply IHa. exact H.
  - subst a'. apply IHb. exact H2.
Qed.

Lemma smaller_wf : well_founded smaller.
Proof.
  unfold smaller.
  apply (wf_inverse_image _ _ lex_lt measure), lex_lt_wf.
Qed.

Lemma body_smaller st st' :
  cond st = true → body st = Ok st' → smaller st' st.
Proof.
  unfold cond, body, smaller, measure, lex_lt.
  destruct st as [r v q]; simpl.
  destruct q as [|[u d] rest]; [discriminate|]. simpl.
  intros Hc%Z.ltb_lt Hb.
  destruct (decide (u ∈ v)).
  { inversion Hb; subst; simpl. right. lia. }
  destruct (requests_get w u) as [| |soup]; [|discriminate|].
  { inversion Hb; subst; simpl. right. lia. }
  destruct (extract soup selectors ∅); [|discriminate].
  inversion Hb; subst; simpl. left. lia.
Qed.

(** Accessibility proofs that unfold without looking at the proof of
    [smaller], so that [loop] evaluates on closed inputs. *)
Fixpoint guard {A} {R : A → A → Prop} (k : nat) (wf : well_founded R)
    : well_founded R :=
  match k with
  | O => wf
  | S k => fun x => Acc_intro x (fun y _ => guard k (guard k wf) y)
  end.

Definition inspect {A} (x : A) : {y : A | x = y} := exist _ x eq_refl.

Definition loop_F (st : state) (loop : ∀ st', smaller st' st → result state)
    : result state :=
  match inspect (cond st) with
  | exist _ false _ => Ok st
  | exist _ true Hc =>
      match inspect (body st) with
      | exist _ (Raise e) _ => Raise e
      | exist _ (Ok st') Hb => loop st' (body_smaller st st' Hc Hb)
      end
  end.

(** The [while] loop of lines 64-113. *)
Definition loop : state → result state :=
  Fix (guard 32 smaller_wf) (fun _ => result state) loop_F.

End Loop.

(** ** Runs of the loop *)

(** The entries that [enqueue_links] appends, as a list. *)
Definition children (parsed_url : ParseResult) (visited : gset string)
    (current_depth : Z) (links : list string) : list (string * Z) :=
  (fun href => (href, current_depth + 1))
    <$> filter (fun href => href ∉ visited) (resolve parsed_url <$> links).

(** The frontier entry that an iteration records in [urls_visited], if
    any: the head of [to_visit] unless its URL is already in [visited]. *)
Definition dequeued (st : state) : list (string * Z) :=
  match to_visit st with
  | [] => []
  | (current_url, current_depth) :: _ =>
      if decide (current_url ∈ visited st) then []
      else [(current_url, current_depth)]
  end.

Section Runs.

Context (w : world) (selectors : list (string * string))
        (depth max_pages : Z) (parsed_url : ParseResult).

(** [steps st0 log st]: the loop started in [st0] is in [st] at the top
    of some later iteration, and [log] lists, in order, the frontier
    entries recorded in [urls_visited] on the way, with their depths. *)
Inductive steps (st0 : state) : list (string * Z) → state → Prop :=
| steps_refl : steps st0 [] st0
| steps_snoc log st st' :
    steps st0 log st →
    cond max_pages st = true →
    body w selectors depth parsed_url st = Ok st' →
    steps st0 (log ++ dequeued st) st'.

(** The three ways in which an iteration completes. *)
Inductive iteration (st : state) : state → Prop :=
| iteration_skip u d rest :
    to_visit st = (u, d) :: rest →
    u ∈ visited st →
    iteration st {| st_results := st_results st;
                    visited := visited st;
                    to_visit := rest |}
| iteration_failed u d rest :
    to_visit st = (u, d) :: rest →
    u ∉ visited st →
    requests_get w u = RequestException →
    iteration st {| st_results := append_url (st_results st) u;
                    visited := {[u]} ∪ visited st;
                    to_visit := rest |}
| iteration_scraped u d rest soup extracted :
    to_visit st = (u, d) :: rest →
    u ∉ visited st →
    requests_get w u = Response soup →
    extract soup selectors ∅ = Ok extracted →
    iteration st
      {| st_results :=
           append_page (append_url (st_results st) u)
             {| pd_url := u; pd_depth := d; pd_extracted := extracted |};
         visited := {[u]} ∪ visited st;
         to_visit :=
           rest ++ (if d <? depth
                    then children parsed_url ({[u]} ∪ visited st) d
                           (find_all_a_href soup)
                    else []) |}.

End Runs.

(** ** [execute] *)

Definition initial (url : string) : state :=
  {| st_results := {| pages_scraped := 0; data := []; urls_visited := [] |};
     visited := ∅;
     to_visit := [(url, 0)] |}.

(** The state in which the loop ends, for a seed that has passed the
    check of lines 39-45. *)
Definition crawl (w : world) (p : params) (parsed_url : ParseResult)
    : result state :=
  loop w (param_selectors p) (param_depth p) (param_max_pages p) parsed_url
    (initial (param_url p)).

Definition execute (w : world) (p : params) : outcome :=
  let url := param_url p in
  match get_int (p_depth p) 1, get_int (p_max_pages p) 5 with
  | Some _, Some _ =>
      match urlparse w url with
      | None => ExecutionError
      | Some parsed_url =>
          if bool_decide (scheme parsed_url = "")
             || bool_decide (netloc parsed_url = "")
          then ValidationError ("Invalid URL: " +:+ url)
          else
            match crawl w p parsed_url with
            | Ok st => Results (st_results st)
            | Raise _ => ExecutionError
            end
      end
  | _, _ => ExecutionError      (* [int] raises at line 32 or 33 *)
  end.

(** The runs of the loop of [execute w p]. *)
Definition crawl_steps (w : world) (p : params) (parsed_url : ParseResult)
    : list (string * Z) → state → Prop :=
  steps w (param_selectors p) (param_depth p) (param_max_pages p) parsed_url
    (initial (param_url p)).

(** The request reaches the check of lines 39-45 ([int] has not raised)
    and the seed passes it. *)
Definition valid_seed (w : world) (p : params) (parsed_url : ParseResult) : Prop :=
  is_Some (get_int (p_depth p) 1) ∧ is_Some (get_int (p_max_pages p) 5)
  ∧ urlparse w (param_url p) = Some parsed_url
  ∧ scheme parsed_url ≠ ""%string ∧ netloc parsed_url ≠ ""%string.

Definition outcome_results (o : outcome) : option results :=
  match o with
  | Results r => Some r
  | _ => None
  end.

(** The same request with another page budget. *)
Definition with_max_pages (p : params) (n : Z) : params :=
  {| p_url := p_url p;
     p_depth := p_depth p;
     p_max_pages := Some (IntValue n);
     p_selectors := p_selectors p |}.

(** [requests.get] answered, [raise_for_status] did not raise and the
    body was parsed. *)
Definition fetched (w : world) (url : string) : Prop :=
  ∃ soup, requests_get w url = Response soup.

#[global] Instance fetched_dec w url : Decision (fetched w url).
Proof.
  unfold fetched. destruct (requests_get w url) as [| |soup];
    [right; by intros [? ?]..|left; by exists soup].
Defined.

(** ** A concrete world

    [urlparse] is the standard library's; the program reads its [scheme]
    and [netloc].  [py_urlparse] follows [urllib.parse.urlsplit] on these
    two fields for strings without leading blanks, control characters or
    brackets: the scheme is what stands before the first [:] when that is a
    letter followed by letters, digits, [+], [-] or [.]; the netloc is what
    follows a leading [//] up to the first [/], [?] or [#]. *)

Definition is_alpha (c : Ascii.ascii) : bool :=
  let n := Ascii.N_of_ascii c in
  ((65 <=? n) && (n <=? 90) || (97 <=? n) && (n <=? 122))%N.

Definition is_scheme_char (c : Ascii.ascii) : bool :=
  let n := Ascii.N_of_ascii c in
  is_alpha c || ((48 <=? n) && (n <=? 57))%N
  || Ascii.eqb c "+"%char || Ascii.eqb c "-"%char || Ascii.eqb c "."%char.

Definition lower (c : Ascii.ascii) : Ascii.ascii :=
  let n := Ascii.N_of_ascii c in
  if ((65 <=? n) && (n <=? 90))%N then Ascii.ascii_of_N (n + 32) else c.

Fixpoint string_forallb (f : Ascii.ascii → bool) (s : string) : bool :=
  match s with
  | EmptyString => true
  | String c s => f c && string_forallb f s
  end.

Fixpoint string_map (f : Ascii.ascii → Ascii.ascii) (s : string) : string :=
  match s with
  | EmptyString => EmptyString
  | String c s => String (f c) (string_map f s)
  end.

(** [s.find(c)], as the pair of what stands before and after. *)
Fixpoint split_at (c : Ascii.ascii) (s : string) : option (string * string) :=
  match s with
  | EmptyString => None
  | String a s =>
      if Ascii.eqb a c then Some (EmptyString, s)
      else match split_at c s with
           | Some (l, r) => Some (String a l, r)
           | None => None
           end
  end.

Fixpoint take_netloc (s : string) : string :=
  match s with
  | EmptyString => EmptyString
  | String a s =>
      if Ascii.eqb a "/"%char || Ascii.eqb a "?"%char || Ascii.eqb a "#"%char then EmptyString
      else String a (take_netloc s)
  end.

Definition py_urlparse (url : string) : option ParseResult :=
  let '(sch, rest) :=
    match split_at ":"%char url with
    | Some (String c pre, rest) =>
        if is_alpha c && string_forallb is_scheme_char pre
        then (string_map lower (String c pre), rest)
        else (EmptyString, url)
    | _ => (EmptyString, url)
    end in
  Some {| scheme := sch;
          netloc := match rest with
                    | String "/"%char (String "/"%char s) => take_netloc s
                    | _ => EmptyString
                    end |}.

(** A page with one [<title>], some [<p>] and some [<a href>].  The
    selector ["["] is not valid CSS and makes [select] raise. *)
Definition html (title : string) (paragraphs links : list string) : BeautifulSoup :=
  {| select := fun selector =>
       if String.eqb selector "[" then None
       else if String.eqb selector "title" then Some [title]
       else if String.eqb selector "p" then Some paragraphs
       else Some [];
     find_all_a_href := links |}.

(** A web given by what it answers; any other URL gives a connection
    error. *)
Fixpoint answer (site : list (string * get_outcome)) (url : string) : get_outcome :=
  match site with
  | [] => GetRaises true
  | (u, o) :: site => if String.eqb u url then o else answer site url
  end.

Definition web_of (site : list (string * get_outcome)) : world :=
  {| urlparse := py_urlparse; http_get := answer site |}.

(** A web given by its pages, each answered with status 200. *)
Fixpoint serve (site : list (string * BeautifulSoup)) (url : string) : get_outcome :=
  match site with
  | [] => GetRaises true
  | (u, soup) :: site =>
      if String.eqb u url then GetReturns 200 (Some soup) else serve site url
  end.

Definition web (site : list (string * BeautifulSoup)) : world :=
  {| urlparse := py_urlparse; http_get := serve site |}.

Definition request (url : string) (depth max_pages : Z) : params :=
  {| p_url := Some url; p_depth := Some (IntValue depth);
     p_max_pages := Some (IntValue max_pages); p_selectors := None |}.

(** [http://x.test/p1] links to [/p2] (section 8 of the specification). *)
Definition site_x : list (string * BeautifulSoup) :=
  [("http://x.test/p1", html "P1" ["a"; "b"] ["/p2"]);
   ("http://x.test/p2", html "P2" [] [])]%string.

(** The seed links to [/a] and [/b]; [/a] links to [/b] again; [/b] links
    to [c], which does not answer. *)
Definition site_dup : list (string * BeautifulSoup) :=
  [("http://x.test/", html "Home" [] ["/a"; "/b"]);
   ("http://x.test/a", html "A" [] ["/b"]);
   ("http://x.test/b", html "B" [] ["c"])]%string.

(** A seed with three links. *)
Definition site_three : list (string * BeautifulSoup) :=
  [("http://x.test/", html "Home" [] ["/1"; "/2"; "/3"]);
   ("http://x.test/1", html "One" [] []);
   ("http://x.test/2", html "Two" [] []);
   ("http://x.test/3", html "Three" [] [])]%string.

(** The seed answers with status 300 and a body that links to [/p2]. *)
Definition site_300 : list (string * get_outcome) :=
  [("http://x.test/p1", GetReturns 300 (Some (html "P1" [] ["/p2"])));
   ("http://x.test/p2", GetReturns 200 (Some (html "P2" [] [])))]%string.

(** The seed links to [/a], which answers with status 404, and to [/b]. *)
Definition site_404 : list (string * get_outcome) :=
  [("http://x.test/", GetReturns 200 (Some (html "Home" [] ["/a"; "/b"])));
   ("http://x.test/a", GetReturns 404 (Some (html "Not found" [] ["/c"])));
   ("http://x.test/b", GetReturns 200 (Some (html "B" [] [])))]%string.

(** The seed links to a host on which [requests.get] raises an exception
    that is not a [RequestException], and to [/ok]. *)
Definition site_bad_host : list (string * get_outcome) :=
  [("http://x.test/", GetReturns 200 (Some (html "Home" [] ["http://x..test/"; "/ok"])));
   ("http://x..test/", GetRaises false);
   ("http://x.test/ok", GetReturns 200 (Some (html "Ok" [] [])))]%string.

(** Two hosts: the seed on [a.test] links to a page on [b.test], which has
    a root-relative and a document-relative link. *)
Definition site_ab : list (string * BeautifulSoup) :=
  [("http://a.test/", html "A" [] ["http://b.test/x"]);
   ("http://b.test/x", html "X" [] ["/y"; "z"]);
   ("http://b.test/y", html "Y" [] []);
   ("http://b.test/z", html "Z" [] [])]%string.

(** * Properties *)

(** ** The scenarios of section 8 of the specification *)

Example scenario_one_link :
  urls_visited
    <$> outcome_results (execute (web site_x) (request "http://x.test/p1" 1 5))
  = Some ["http://x.test/p1"; "http://x.test/p2"]%string.
Proof. vm_compute. reflexivity. Qed.

Example scenario_selectors :
  (fun pd => (pd_extracted pd !! "title"%string,
              pd_extracted pd !! "content"%string))
    <$> (outcome_results (execute (web site_x) (request "http://x.test/p1" 0 5))
         ≫= fun r => head (data r))
  = Some (Some ["P1"], Some ["a"; "b"])%string.
Proof. vm_compute. reflexivity. Qed.

Example scenario_budget_of_one :
  (fun r => (pages_scraped r, urls_visited r))
    <$> outcome_results (execute (web site_three) (request "http://x.test/" 1 1))
  = Some (1, ["http://x.test/"]%string).
Proof. vm_compute. reflexivity. Qed.

Example scenario_invalid_seed :
  execute (web site_x) (request "not-a-url" 1 5)
  = ValidationError "Invalid URL: not-a-url".
Proof. vm_compute. reflexivity. Qed.

Section Facts.

Context (w : world) (selectors : list (string * string))
        (depth max_pages : Z) (parsed_url : ParseResult).

Abbreviation Cond := (cond max_pages).
Abbreviation Body := (body w selectors depth parsed_url).
Abbreviation Loop := (loop w selectors depth max_pages parsed_url).
Abbreviation Steps := (steps w selectors depth max_pages parsed_url).
Abbreviation Iteration := (iteration w selectors depth parsed_url).

(** The loop is the [while] of the source. *)
Lemma loop_unfold st :
  Loop st =
  if Cond st then
    match Body st with
    | Ok st' => Loop st'
    | Raise e => Raise e
    end
  else Ok st.
Proof.
  unfold loop. rewrite Fix_eq.
  - unfold loop_F at 1.
    destruct (inspect (Cond st)) as [[] Hc]; rewrite Hc; [|reflexivity].
    destruct (inspect (Body st)) as [[st'|e] Hb]; rewrite Hb; reflexivity.
  - intros x f g Hfg. unfold loop_F.
    destruct (inspect (Cond x)) as [[] Hc]; [|reflexivity].
    destruct (inspect (Body x)) as [[st'|e] Hb]; [apply Hfg|reflexivity].
Qed.

#[global] Opaque loop.

Lemma cond_true st :
  Cond st = true ↔
  to_visit st ≠ [] ∧ pages_scraped (st_results st) < max_pages.
Proof.
  unfold cond. rewrite andb_true_iff, Z.ltb_lt.
  destruct (to_visit st); intuition congruence.
Qed.

Lemma cond_false st :
  Cond st = false ↔
  to_visit st = [] ∨ max_pages ≤ pages_scraped (st_results st).
Proof.
  unfold cond. rewrite andb_false_iff, Z.ltb_ge.
  destruct (to_visit st); intuition congruence.
Qed.

Lemma enqueue_links_app v d links q :
  enqueue_links parsed_url v d links q = q ++ children parsed_url v d links.
Proof.
  unfold enqueue_links, children. revert q.
  induction links as [|href links IH]; intros q; simpl.
  { by rewrite app_nil_r. }
  rewrite IH, filter_cons.
  destruct (decide (resolve parsed_url href ∈ v)) as [Hin|Hin].
  - by rewrite decide_False by (intros Hn; by apply Hn).
  - rewrite decide_True by done. simpl. by rewrite <- app_assoc.
Qed.

Lemma body_Ok st st' : Body st = Ok st' → Iteration st st'.
Proof.
  unfold body.
  destruct (to_visit st) as [|[u d] rest] eqn:Hq; [discriminate|].
  destruct (decide (u ∈ visited st)) as [Hv|Hv].
  { intros [= <-]. by eapply iteration_skip. }
  destruct (requests_get w u) as [| |soup] eqn:Hget; [|discriminate|].
  { intros [= <-]. by eapply iteration_failed. }
  destruct (extract soup selectors ∅) as [extracted|] eqn:Hex; [|discriminate].
  intros [= <-].
  replace (if d <? depth then enqueue_links _ _ _ _ _ else rest)
    with (rest ++ (if d <? depth
                   then children parsed_url ({[u]} ∪ visited st) d
                          (find_all_a_href soup)
                   else [])).
  { by eapply iteration_scraped. }
  destruct (d <? depth); [by rewrite enqueue_links_app | by rewrite app_nil_r].
Qed.

Lemma steps_trans st0 log1 st1 log2 st2 :
  Steps st0 log1 st1 → Steps st1 log2 st2 → Steps st0 (log1 ++ log2) st2.
Proof.
  intros H1 H2. induction H2 as [|log st st' _ IH Hc Hb].
  - by rewrite app_nil_r.
  - rewrite app_assoc. by eapply steps_snoc.
Qed.

(** The loop returns the state of a run in which the condition fails... *)
Lemma loop_Ok st0 log st r :
  Steps st0 log st → Loop st = Ok r →
  ∃ log', Steps st0 log' r ∧ Cond r = false.
Proof.
  revert log. induction (smaller_wf max_pages st) as [st _ IH].
  intros log Hsteps. rewrite loop_unfold.
  destruct (Cond st) eqn:Hc.
  - destruct (Body st) as [st'|e] eqn:Hb; [|discriminate].
    apply (IH st' (body_smaller _ _ _ _ _ _ _ Hc Hb) (log ++ dequeued st)).
    by eapply steps_snoc.
  - intros [= <-]. eauto.
Qed.

(** ...or raises what the body raised at the top of some iteration. *)
Lemma loop_Raise st0 log st e :
  Steps st0 log st → Loop st = Raise e →
  ∃ log' st', Steps st0 log' st' ∧ Cond st' = true ∧ Body st' = Raise e.
Proof.
  revert log. induction (smaller_wf max_pages st) as [st _ IH].
  intros log Hsteps. rewrite loop_unfold.
  destruct (Cond st) eqn:Hc; [|discriminate].
  destruct (Body st) as [st'|e'] eqn:Hb.
  - apply (IH st' (body_smaller _ _ _ _ _ _ _ Hc Hb) (log ++ dequeued st)).
    by eapply steps_snoc.
  - intros [= <-]. eauto 6.
Qed.

(** A run is empty or starts with an iteration. *)
Lemma steps_inv_first st0 log st :
  Steps st0 log st →
  (st = st0 ∧ log = [])
  ∨ ∃ st1 log1,
      Cond st0 = true ∧ Body st0 = Ok st1
      ∧ Steps st1 log1 st ∧ log = dequeued st0 ++ log1.
Proof.
  induction 1 as [|log st st' Hsteps IH Hc Hb]; [by left|right].
  destruct IH as [[-> ->]|(st1 & log1 & Hc0 & Hb0 & Hsteps1 & ->)].
  - exists st', []. split_and!; [done..|apply steps_refl|by rewrite app_nil_r].
  - exists st1, (log1 ++ dequeued st).
    split_and!; [done..|by eapply steps_snoc|by rewrite app_assoc].
Qed.

(** The loop is deterministic: every run is the beginning of the run that
    reaches the state in which the condition fails. *)
Lemma steps_prefix st0 log1 st1 log2 st2 :
  Steps st0 log1 st1 → Steps st0 log2 st2 → Cond st2 = false →
  ∃ log', Steps st1 log' st2 ∧ log2 = log1 ++ log'.
Proof.
  intros H1 H2 Hc2. induction H1 as [|log st st' Hsteps IH Hc Hb].
  { by exists log2. }
  destruct IH as (log' & Hrest & ->).
  apply steps_inv_first in Hrest
    as [[-> ->]|(st1 & log1 & _ & Hb1 & Hsteps1 & ->)]; [congruence|].
  rewrite Hb in Hb1. injection Hb1 as <-.
  exists log1. split; [done|by rewrite app_assoc].
Qed.

(** *** Invariants of the runs that start in [initial url] *)

Context (url : string).

Ltac run_induction H :=
  induction H as [|log st st' Hsteps IH Hc Hb];
  [ simpl
  | apply body_Ok in Hb;
    apply cond_true in Hc as [Hne Hlt];
    destruct Hb as [u d rest Hq Hv
                   |u d rest Hq Hv Hget
                   |u d rest soup extracted Hq Hv Hget Hex];
    unfold dequeued; rewrite ?Hq;
    [ rewrite ?(decide_True _ _ Hv), ?app_nil_r
    | rewrite ?(decide_False _ _ Hv)
    | rewrite ?(decide_False _ _ Hv) ];
    simpl in * ].

(** [pages_scraped] counts [data] and stays within the budget. *)
Lemma steps_count log st :
  Steps (initial url) log st →
  pages_scraped (st_results st) = Z.of_nat (length (data (st_results st)))
  ∧ 0 ≤ pages_scraped (st_results st) ≤ Z.max 0 max_pages.
Proof.
  intros H. run_induction H; try done; try lia.
  rewrite length_app. simpl. lia.
Qed.

(** [visited] is the set of the URLs recorded in [urls_visited], each
    recorded once, and the log lists them. *)
Lemma steps_visited log st :
  Steps (initial url) log st →
  visited st = list_to_set (urls_visited (st_results st))
  ∧ NoDup (urls_visited (st_results st))
  ∧ log.*1 = urls_visited (st_results st).
Proof.
  intros H. run_induction H; try done.
  { split_and!; [done|constructor|done]. }
  all: destruct IH as (IHv & IHn & IHl); rewrite IHv in Hv;
    apply not_elem_of_list_to_set in Hv.
  all: rewrite list_to_set_snoc_L, fmap_app, IHv, IHl; simpl.
  all: split_and!; [apply (comm_L (∪))| |done].
  all: apply NoDup_app; split_and!; [done| |apply NoDup_singleton].
  all: intros x Hx ->%list_elem_of_singleton; done.
Qed.

(** [data] holds the recorded URLs whose fetch succeeded, in order, each
    with the depth of its frontier entry. *)
Lemma steps_data log st :
  Steps (initial url) log st →
  pd_url <$> data (st_results st)
    = filter (fetched w) (urls_visited (st_results st))
  ∧ ∀ pd, pd ∈ data (st_results st) → (pd_url pd, pd_depth pd) ∈ log.
Proof.
  intros H. run_induction H; try done.
  - split; [done|]. intros pd Hpd. by apply not_elem_of_nil in Hpd.
  - destruct IH as [IHd IHl]. split.
    + rewrite filter_app, filter_cons, decide_False.
      * simpl filter. rewrite app_nil_r. exact IHd.
      * intros [soup Hsoup]. congruence.
    + intros pd Hpd. apply elem_of_app. left. by apply IHl.
  - destruct IH as [IHd IHl]. split.
    + rewrite fmap_app, filter_app, filter_cons, decide_True.
      * simpl filter. rewrite IHd. reflexivity.
      * by exists soup.
    + intros pd [Hpd| ->%list_elem_of_singleton]%elem_of_app;
        apply elem_of_app; [left; by apply IHl|right].
      by apply list_elem_of_singleton.
Qed.

Lemma children_depth v d links x :
  x ∈ (children parsed_url v d links).*2 → x = d + 1.
Proof.
  unfold children. rewrite <- list_fmap_compose.
  by intros (href & -> & _)%list_elem_of_fmap.
Qed.

Lemma StronglySorted_const (l : list Z) c :
  (∀ x, x ∈ l → x = c) → StronglySorted Z.le l.
Proof.
  induction l as [|a l IH]; intros Hl; constructor.
  - apply IH. intros x Hx. apply Hl. by right.
  - apply Forall_forall. intros y Hy.
    rewrite (Hl a), (Hl y); [lia|by right|by left].
Qed.

(** Breadth first: the depths of the log followed by those of the
    frontier never decrease, and the frontier spans at most two levels. *)
Lemma steps_order log st :
  Steps (initial url) log st →
  StronglySorted Z.le (log.*2 ++ (to_visit st).*2)
  ∧ ∀ x y, x ∈ (to_visit st).*2 → y ∈ (to_visit st).*2 → y ≤ x + 1.
Proof.
  intros H. run_induction H.
  - split; [repeat constructor|].
    intros x y ->%list_elem_of_singleton ->%list_elem_of_singleton. lia.
  - destruct IH as [IHs IHw]. rewrite Hq in IHs, IHw. simpl in *.
    apply StronglySorted_app in IHs as (Hx & Hl & [Hd Hr]%StronglySorted_cons).
    split.
    + apply StronglySorted_app_2; [|done..].
      intros x1 x2 H1 H2. apply Hx; [done|by right].
    + intros x y Hx' Hy'. apply IHw; by right.
  - destruct IH as [IHs IHw]. rewrite Hq in IHs, IHw. simpl in *.
    rewrite fmap_app, <- app_assoc. split; [done|].
    intros x y Hx' Hy'. apply IHw; by right.
  - destruct IH as [IHs IHw]. rewrite Hq in IHs, IHw. simpl in *.
    rewrite !fmap_app, <- app_assoc. simpl.
    set (C := (if d <? depth then _ else _).*2).
    assert (HC : ∀ x, x ∈ C → x = d + 1).
    { subst C. destruct (d <? depth); [apply children_depth|].
      intros x Hx. by apply not_elem_of_nil in Hx. }
    pose proof IHs as (Hx & Hl & [Hd Hr]%StronglySorted_cons)%StronglySorted_app.
    rewrite Forall_forall in Hd.
    split.
    + change (d :: rest.*2 ++ C) with ((d :: rest.*2) ++ C).
      rewrite app_assoc. apply StronglySorted_app_2.
      * intros x1 x2 [H1|[->|H1]%elem_of_cons]%elem_of_app ->%HC.
        -- specialize (Hx x1 d H1 ltac:(by left)). lia.
        -- lia.
        -- apply (IHw d x1); [by left|by right].
      * done.
      * by apply StronglySorted_const with (d + 1).
    + intros x y [Hx'| ->%HC]%elem_of_app [Hy'| ->%HC]%elem_of_app.
      * apply IHw; by right.
      * specialize (Hd x Hx'). lia.
      * specialize (IHw d y ltac:(by left) ltac:(by right)). lia.
      * lia.
Qed.

(** Depths start at 0 and a child is enqueued only below [depth]. *)
Lemma steps_depth log st :
  Steps (initial url) log st →
  ∀ d, d ∈ (to_visit st).*2 ++ log.*2 → 0 ≤ d ≤ Z.max 0 depth.
Proof.
  intros H. run_induction H.
  - intros d ->%list_elem_of_singleton. lia.
  - rewrite Hq in IH. intros x Hx. apply IH. set_solver.
  - rewrite Hq in IH. intros x Hx. apply IH. set_solver.
  - rewrite Hq in IH. intros x Hx.
    rewrite !fmap_app, <- !app_assoc in Hx.
    apply elem_of_app in Hx as [Hx|[Hx|Hx]%elem_of_app].
    + apply IH. set_solver.
    + destruct (d <? depth) eqn:Hd; [|by apply not_elem_of_nil in Hx].
      apply children_depth in Hx as ->. apply Z.ltb_lt in Hd.
      specialize (IH d ltac:(set_solver)). lia.
    + apply IH. set_solver.
Qed.

(** With [depth ≤ 0] nothing is ever enqueued behind the seed. *)
Lemma steps_no_expansion log st :
  depth ≤ 0 →
  Steps (initial url) log st →
  (to_visit st = [(url, 0)] ∧ urls_visited (st_results st) = [])
  ∨ (to_visit st = [] ∧ urls_visited (st_results st) = [url]).
Proof.
  intros Hdepth H. run_induction H.
  - by left.
  - pose proof (steps_visited _ _ Hsteps) as (Hvis & _).
    destruct IH as [[IHq IHu]|[IHq _]]; [|congruence].
    rewrite Hvis, IHu in Hv. by apply not_elem_of_empty in Hv.
  - destruct IH as [[IHq IHu]|[IHq _]]; [|congruence].
    rewrite IHq in Hq. injection Hq as <- <- <-. rewrite IHu. by right.
  - destruct IH as [[IHq IHu]|[IHq _]]; [|congruence].
    rewrite IHq in Hq. injection Hq as <- <- <-. rewrite IHu.
    replace (0 <? depth) with false by (symmetry; apply Z.ltb_ge; lia).
    by right.
Qed.

Lemma NoDup_fst_lookup (l : list (string * Z)) u d1 d2 :
  NoDup l.*1 → (u, d1) ∈ l → (u, d2) ∈ l → d1 = d2.
Proof.
  induction l as [|[u' d'] l IH]; simpl; [by intros _ []%not_elem_of_nil|].
  intros [Hnin Hnd]%NoDup_cons [H1|H1]%elem_of_cons [H2|H2]%elem_of_cons.
  - congruence.
  - injection H1 as -> ->. destruct Hnin. by apply (list_elem_of_fmap_2 fst) in H2.
  - injection H2 as -> ->. destruct Hnin. by apply (list_elem_of_fmap_2 fst) in H1.
  - by apply IH.
Qed.

(** The depth recorded for a URL is the least depth at which the URL is
    ever in the frontier: the entry that is dequeued first for it. *)
Lemma steps_first_discovery log st log2 st' u d d' :
  Steps (initial url) log st →
  (u, d') ∈ to_visit st →
  Steps st log2 st' →
  (u, d) ∈ log ++ log2 →
  d ≤ d'.
Proof.
  intros Hrun Hin Hrun2 Hlog.
  assert (HJ : (u, d') ∈ to_visit st'
               ∨ ∃ d0, (u, d0) ∈ log ++ log2 ∧ d0 ≤ d').
  { clear Hlog. induction Hrun2 as [|log2 st1 st2 Hsteps IH Hc Hb]; [by left|].
    destruct IH as [IH|(d0 & IH & Hle)].
    2:{ right. exists d0. split; [|done]. rewrite app_assoc. set_solver. }
    pose proof (steps_trans _ _ _ _ _ Hrun Hsteps) as Hrun1.
    destruct (steps_visited _ _ Hrun1) as (Hvis & _ & Hfst).
    destruct (steps_order _ _ Hrun1) as (Hsorted & _).
    apply body_Ok in Hb. unfold dequeued.
    destruct Hb as [u0 d0 rest Hq Hv|u0 d0 rest Hq Hv Hget
                   |u0 d0 rest soup ex Hq Hv Hget Hex];
      rewrite Hq in *; simpl;
      apply elem_of_cons in IH as [[= <- <-]|IH];
      try (left; set_solver).
    - right. rewrite Hvis, <- Hfst in Hv.
      apply elem_of_list_to_set, list_elem_of_fmap in Hv as ([u1 d1] & -> & Hv).
      exists d1. split; [set_solver|].
      apply (StronglySorted_app_1_elem_of _ _ _ _ _ Hsorted).
      + by apply (list_elem_of_fmap_2 snd) in Hv.
      + by left.
    - right. exists d'. rewrite decide_False by done. split; [set_solver|lia].
    - right. exists d'. rewrite decide_False by done. split; [set_solver|lia]. }
  pose proof (steps_trans _ _ _ _ _ Hrun Hrun2) as Hfull.
  destruct HJ as [HJ|(d0 & HJ & Hle)].
  - destruct (steps_order _ _ Hfull) as (Hsorted & _).
    apply (StronglySorted_app_1_elem_of _ _ _ _ _ Hsorted).
    + by apply (list_elem_of_fmap_2 snd) in Hlog.
    + by apply (list_elem_of_fmap_2 snd) in HJ.
  - destruct (steps_visited _ _ Hfull) as (_ & Hnodup & Hfst).
    rewrite <- Hfst in Hnodup.
    by rewrite (NoDup_fst_lookup _ _ _ _ Hnodup Hlog HJ).
Qed.

End Facts.

(** ** From [execute] to the runs of its loop *)

Lemma execute_valid w p parsed_url :
  valid_seed w p parsed_url →
  execute w p =
  match crawl w p parsed_url with
  | Ok st => Results (st_results st)
  | Raise _ => ExecutionError
  end.
Proof.
  intros ([d Hd] & [m Hm] & Hparse & Hs & Hn). unfold execute.
  rewrite Hd, Hm, Hparse. by rewrite !bool_decide_eq_false_2.
Qed.

Lemma crawl_Ok w p parsed_url st :
  crawl w p parsed_url = Ok st →
  ∃ log, crawl_steps w p parsed_url log st ∧ cond (param_max_pages p) st = false.
Proof.
  unfold crawl, crawl_steps. intros Hcrawl.
  eapply loop_Ok; [apply steps_refl|exact Hcrawl].
Qed.

Lemma execute_Results w p r :
  execute w p = Results r →
  ∃ parsed_url log st,
    valid_seed w p parsed_url
    ∧ crawl w p parsed_url = Ok st
    ∧ crawl_steps w p parsed_url log st
    ∧ cond (param_max_pages p) st = false
    ∧ st_results st = r.
Proof.
  unfold execute.
  destruct (get_int (p_depth p) 1) as [d|] eqn:Hd; [|discriminate].
  destruct (get_int (p_max_pages p) 5) as [m|] eqn:Hm; [|discriminate].
  destruct (urlparse w (param_url p)) as [pu|] eqn:Hparse; [|discriminate].
  destruct (bool_decide (scheme pu = "")) eqn:Hs; [discriminate|].
  destruct (bool_decide (netloc pu = "")) eqn:Hn; [discriminate|].
  apply bool_decide_eq_false in Hs, Hn. cbn [orb].
  destruct (crawl w p pu) as [st|e] eqn:Hcrawl; [|discriminate].
  intros [= <-].
  destruct (crawl_Ok _ _ _ _ Hcrawl) as (log & Hsteps & Hc).
  exists pu, log, st. unfold valid_seed. rewrite Hd, Hm.
  split_and!; by eauto.
Qed.

(** * The claims *)

(** Runs a given number of iterations on a closed state. *)
Ltac run_steps n :=
  lazymatch n with
  | O => apply steps_refl
  | S ?k =>
      eapply steps_snoc;
      [run_steps k | reflexivity | reflexivity]
  end.

(** ** C1: where a URL enters [visited] *)

(** C1, as stated, fails.  The claim says that a URL is put into the
    visited set when it is enqueued, so that no URL is enqueued twice.  In
    the crawl of [site_dup] the loop reaches, after two iterations, a
    frontier that holds [http://x.test/b] twice (found on the seed and on
    [/a]) while that URL is not in [visited]. *)
Lemma visited_at_enqueue_counterexample :
  ∃ log st,
    crawl_steps (web site_dup) (request "http://x.test/" 2 5)
      {| scheme := "http"; netloc := "x.test" |} log st
    ∧ to_visit st = [("http://x.test/b", 1); ("http://x.test/b", 2)]%string
    ∧ "http://x.test/b"%string ∉ visited st.
Proof.
  do 2 eexists. split_and!.
  - run_steps 2%nat.
  - reflexivity.
  - vm_compute. intros [=].
Qed.

(** C1, amended: a URL enters [visited] when it is dequeued and recorded
    in [urls_visited], not when it is enqueued.  At the top of every
    iteration [visited] is exactly the set of the URLs in [urls_visited].
    An iteration adds to [visited] the URL it dequeues and nothing else;
    the links it enqueues are appended behind the rest of the frontier,
    each only when its URL is not in [visited], and they leave [visited]
    as it is.  A dequeued URL that is already in [visited] is dropped
    without a fetch: the entry leaves the frontier, nothing is enqueued and
    the results stay as they are. *)
Theorem visited_at_dequeue w p parsed_url log st st' :
  crawl_steps w p parsed_url log st →
  cond (param_max_pages p) st = true →
  body w (param_selectors p) (param_depth p) parsed_url st = Ok st' →
  visited st = list_to_set (urls_visited (st_results st))
  ∧ visited st' = visited st ∪ list_to_set (dequeued st).*1
  ∧ (∃ new,
       to_visit st' = tail (to_visit st) ++ new
       ∧ (∀ href depth, (href, depth) ∈ new → href ∉ visited st')
       ∧ (dequeued st = [] → new = []))
  ∧ (dequeued st = [] → st_results st' = st_results st).
Proof.
  intros Hsteps Hc Hb.
  destruct (steps_visited _ _ _ _ _ _ _ _ Hsteps) as (Hvis & _ & _).
  split; [exact Hvis|].
  apply body_Ok in Hb. unfold dequeued.
  destruct Hb as [u d rest Hq Hv|u d rest Hq Hv Hget|u d rest soup ex Hq Hv Hget Hex];
    rewrite Hq; simpl.
  - rewrite decide_True by done. simpl. split_and!; [|exists []|done].
    + by rewrite (right_id_L ∅ (∪)).
    + rewrite app_nil_r. split_and!; [done| |done].
      by intros href depth []%not_elem_of_nil.
  - rewrite decide_False by done. simpl. split_and!; [|exists []|done].
    + rewrite (right_id_L ∅ (∪)). apply (comm_L (∪)).
    + rewrite app_nil_r. split_and!; [done| |done].
      by intros href depth []%not_elem_of_nil.
  - rewrite decide_False by done. simpl. split_and!; [|eexists|done].
    + rewrite (right_id_L ∅ (∪)). apply (comm_L (∪)).
    + split_and!; [done| |done].
      intros href depth Hin.
      destruct (d <? param_depth p); [|by apply not_elem_of_nil in Hin].
      unfold children in Hin.
      by apply list_elem_of_fmap in Hin
        as (h & [= -> ->] & [Hnew _]%list_elem_of_filter).
Qed.

Lemma visited_at_dequeue_witness :
  ∃ st',
    body (web site_dup) (param_selectors (request "http://x.test/" 2 5)) 2
      {| scheme := "http"; netloc := "x.test" |} (initial "http://x.test/") = Ok st'
    ∧ visited st' = ∅ ∪ list_to_set [("http://x.test/", 0)].*1
    ∧ to_visit st' = [("http://x.test/a", 1); ("http://x.test/b", 1)]%string
    ∧ ∃ new,
        to_visit st' = [] ++ new
        ∧ ∀ href depth, (href, depth) ∈ new → href ∉ visited st'.
Proof.
  set (p := request "http://x.test/" 2 5).
  set (pu := {| scheme := "http"; netloc := "x.test" |}).
  destruct (body (web site_dup) (param_selectors p) (param_depth p) pu
              (initial (param_url p))) as [st'|e] eqn:Hb;
    [|vm_compute in Hb; discriminate].
  exists st'. split; [exact Hb|].
  destruct (visited_at_dequeue (web site_dup) p pu [] _ st'
              (steps_refl _ _ _ _ _ _) eq_refl Hb)
    as (_ & Hvisited & (new & Hnew & Hfresh & _) & _).
  split; [exact Hvisited|].
  split; [vm_compute in Hb; by injection Hb as <-|].
  exists new. split; [exact Hnew|exact Hfresh].
Defined.

(** ** C2: the base of relative links *)

(** C2 does not hold of the code.  The claim resolves a relative href
    against the page on which it stands.  [resolve] is given [parsed_url],
    which line 39 computes once from the seed.  In the crawl of [site_ab]
    the page [http://b.test/x] carries the links [/y] and [z]; they are
    visited as [http://a.test/y] and [http://a.test/z], on the host of the
    seed, and not as [http://b.test/y] and [http://b.test/z], which is what
    [resolve] gives with the parsed URL of the page. *)
Theorem relative_links_resolved_against_seed :
  urls_visited
    <$> outcome_results (execute (web site_ab) (request "http://a.test/" 2 5))
  = Some ["http://a.test/"; "http://b.test/x";
          "http://a.test/y"; "http://a.test/z"]%string
  ∧ flip resolve "/y"%string <$> py_urlparse "http://b.test/x"
    = Some "http://b.test/y"%string
  ∧ flip resolve "z"%string <$> py_urlparse "http://b.test/x"
    = Some "http://b.test/z"%string.
Proof. split_and!; vm_compute; reflexivity. Qed.

(** ** C3: a page budget that is not positive *)

(** C3, as stated, fails: with [max_pages = 0] and a well-formed seed the
    request is not rejected; [execute] returns a successful, empty result. *)
Lemma nonpositive_budget_counterexample :
  param_max_pages (request "http://x.test/p1" 1 0) ≤ 0
  ∧ execute (web site_x) (request "http://x.test/p1" 1 0)
    = Results {| pages_scraped := 0; data := []; urls_visited := [] |}
  ∧ ∀ error,
      execute (web site_x) (request "http://x.test/p1" 1 0)
      ≠ ValidationError error.
Proof.
  assert (H : execute (web site_x) (request "http://x.test/p1" 1 0)
              = Results {| pages_scraped := 0; data := []; urls_visited := [] |})
    by (vm_compute; reflexivity).
  split_and!; [done|exact H|]. intros error. rewrite H. discriminate.
Qed.

(** C3, amended: lines 39-45 check the seed URL only.  A request with
    [max_pages ≤ 0] whose seed has a scheme and a host is not rejected:
    the loop condition fails at once, no page is fetched, and the result
    is successful with [pages_scraped = 0] and empty [data] and
    [urls_visited]. *)
Theorem nonpositive_budget_empty_result w p parsed_url :
  valid_seed w p parsed_url →
  param_max_pages p ≤ 0 →
  execute w p = Results {| pages_scraped := 0; data := []; urls_visited := [] |}.
Proof.
  intros Hvalid Hmax. rewrite (execute_valid _ _ _ Hvalid).
  unfold crawl. rewrite loop_unfold.
  replace (cond _ _) with false; [reflexivity|].
  symmetry. apply cond_false. right. simpl. lia.
Qed.

Lemma nonpositive_budget_empty_result_witness :
  execute (web site_x) (request "http://x.test/p1" 1 (-3))
  = Results {| pages_scraped := 0; data := []; urls_visited := [] |}.
Proof.
  apply (nonpositive_budget_empty_result (web site_x)
           (request "http://x.test/p1" 1 (-3))
           {| scheme := "http"; netloc := "x.test" |}).
  - unfold valid_seed. split_and!; [by eexists|by eexists|reflexivity|discriminate|discriminate].
  - vm_compute. discriminate.
Defined.

(** ** C4: which errors stay inside the loop *)

Lemma requests_get_web site u :
  requests_get (web site) u = RequestException
  ∨ ∃ soup, (u, soup) ∈ site ∧ requests_get (web site) u = Response soup.
Proof.
  unfold requests_get, web. simpl.
  induction site as [|[u' soup] site IH]; simpl; [by left|].
  destruct (String.eqb_spec u' u) as [->|Hne].
  - right. exists soup. split; [by left|done].
  - destruct IH as [IH|(soup' & Hin & IH)]; [by left|right].
    exists soup'. split; [by right|done].
Qed.

(** C4, as stated, fails.  In the first crawl the seed passes the check,
    its page is fetched, and [soup.select] raises on the selector ["["].
    In the second one the seed links to a URL on which [requests.get]
    raises an exception that is not a [RequestException].  Either
    exception leaves the loop, the results are dropped and [execute]
    returns an execution error. *)
Lemma error_isolation_counterexample :
  valid_seed (web site_x)
    {| p_url := Some "http://x.test/p1"%string; p_depth := Some (IntValue 1);
       p_max_pages := Some (IntValue 5); p_selectors := Some [("title", "[")]%string |}
    {| scheme := "http"; netloc := "x.test" |}
  ∧ execute (web site_x)
      {| p_url := Some "http://x.test/p1"%string; p_depth := Some (IntValue 1);
         p_max_pages := Some (IntValue 5); p_selectors := Some [("title", "[")]%string |}
    = ExecutionError
  ∧ valid_seed (web_of site_bad_host) (request "http://x.test/" 1 5)
      {| scheme := "http"; netloc := "x.test" |}
  ∧ execute (web_of site_bad_host) (request "http://x.test/" 1 5) = ExecutionError.
Proof.
  split_and!; [|vm_compute; reflexivity| |vm_compute; reflexivity].
  all: unfold valid_seed;
    split_and!; [by eexists|by eexists|reflexivity|discriminate|discriminate].
Qed.

(** C4, amended: once the seed has passed the check, a failed fetch that
    raises a [RequestException] (transport failure, timeout, status 4xx or
    5xx) never leaves the loop.  Provided that nothing else raises in the
    loop body (neither [requests.get] nor the parser another exception,
    nor a selector on a fetched page), the loop runs to its end, [execute]
    returns the results, and the loop has stopped because the frontier is
    empty or [pages_scraped] has reached [max_pages]. *)
Theorem request_errors_isolated w p parsed_url :
  valid_seed w p parsed_url →
  (∀ u, requests_get w u ≠ OtherException) →
  (∀ u soup, requests_get w u = Response soup →
             ∃ extracted, extract soup (param_selectors p) ∅ = Ok extracted) →
  ∃ st,
    crawl w p parsed_url = Ok st
    ∧ execute w p = Results (st_results st)
    ∧ (to_visit st = [] ∨ param_max_pages p ≤ pages_scraped (st_results st)).
Proof.
  intros Hvalid Hget' Hsel. rewrite (execute_valid _ _ _ Hvalid).
  destruct (crawl w p parsed_url) as [st|e] eqn:Hcrawl.
  - exists st. split_and!; [done..|].
    destruct (crawl_Ok _ _ _ _ Hcrawl) as (log & _ & Hc).
    by apply cond_false in Hc.
  - exfalso. unfold crawl in Hcrawl.
    eapply loop_Raise in Hcrawl as (log & st & _ & Hc & Hb); [|apply steps_refl].
    apply cond_true in Hc as [Hne _]. unfold body in Hb.
    destruct (to_visit st) as [|[u d] rest]; [done|].
    destruct (decide (u ∈ visited st)); [discriminate|].
    destruct (requests_get w u) as [| |soup] eqn:Hget;
      [discriminate|by apply (Hget' u)|].
    destruct (Hsel u soup Hget) as [extracted Hex].
    rewrite Hex in Hb. discriminate.
Qed.

Lemma request_errors_isolated_witness :
  ∃ st,
    crawl (web site_dup) (request "http://x.test/" 2 5)
      {| scheme := "http"; netloc := "x.test" |} = Ok st
    ∧ execute (web site_dup) (request "http://x.test/" 2 5)
      = Results (st_results st)
    ∧ (to_visit st = [] ∨ 5 ≤ pages_scraped (st_results st)).
Proof.
  apply (request_errors_isolated (web site_dup) (request "http://x.test/" 2 5)).
  - unfold valid_seed.
    split_and!; [by eexists|by eexists|reflexivity|discriminate|discriminate].
  - intros u. destruct (requests_get_web site_dup u) as [->|(soup & _ & ->)];
      discriminate.
  - intros u soup Hget.
    destruct (requests_get_web site_dup u) as [Hu|(soup' & Hin & Hu)];
      rewrite Hu in Hget; [discriminate|]. injection Hget as <-.
    unfold site_dup in Hin.
    repeat (apply elem_of_cons in Hin as [[= _ ->]|Hin];
            [eexists; reflexivity|]).
    by apply not_elem_of_nil in Hin.
Defined.

(** ** C5: the page count *)

(** Whatever [max_pages] is, [pages_scraped] counts [data] and stays
    within [max(max_pages, 0)]. *)
Lemma pages_scraped_bounds w p r :
  execute w p = Results r →
  pages_scraped r = Z.of_nat (length (data r))
  ∧ pages_scraped r ≤ Z.max 0 (param_max_pages p).
Proof.
  intros (pu & log & st & _ & _ & Hsteps & _ & <-)%execute_Results.
  destruct (steps_count _ _ _ _ _ _ _ _ Hsteps) as (Hlen & _ & Hmax).
  by split.
Qed.

(** Outside the request contract: a negative [max_pages] is not checked,
    the loop does not run and [pages_scraped = 0]. *)
Lemma negative_budget_remark :
  execute (web site_x) (request "http://x.test/p1" 1 (-1))
  = Results {| pages_scraped := 0; data := []; urls_visited := [] |}.
Proof. vm_compute. reflexivity. Qed.

(** C5: for every crawl that passes validation (the seed is accepted, so
    that results are returned, and [max_pages] is positive), the result
    has [pages_scraped = len(data)] and [pages_scraped ≤ max_pages]. *)
Theorem pages_scraped_counts_data w p r :
  1 ≤ param_max_pages p →
  execute w p = Results r →
  pages_scraped r = Z.of_nat (length (data r))
  ∧ pages_scraped r ≤ param_max_pages p.
Proof.
  intros Hmax (pu & log & st & _ & _ & Hsteps & _ & <-)%execute_Results.
  destruct (steps_count _ _ _ _ _ _ _ _ Hsteps) as (Hlen & _ & Hle).
  split; [done|lia].
Qed.

Lemma pages_scraped_counts_data_witness :
  ∃ r,
    execute (web site_three) (request "http://x.test/" 1 2) = Results r
    ∧ pages_scraped r = Z.of_nat (length (data r))
    ∧ pages_scraped r ≤ 2.
Proof.
  destruct (execute (web site_three) (request "http://x.test/" 1 2))
    as [r| |] eqn:He; [|vm_compute in He; discriminate..].
  exists r. split; [reflexivity|].
  apply (pages_scraped_counts_data (web site_three) (request "http://x.test/" 1 2));
    [vm_compute; discriminate|exact He].
Defined.

(** ** C6: no URL is recorded twice *)

(** C6: in the results of every crawl each URL stands at most once in
    [urls_visited]. *)
Theorem urls_visited_unique w p r :
  execute w p = Results r → NoDup (urls_visited r).
Proof.
  intros (pu & log & st & _ & _ & Hsteps & _ & <-)%execute_Results.
  by destruct (steps_visited _ _ _ _ _ _ _ _ Hsteps) as (_ & Hnodup & _).
Qed.

Lemma urls_visited_unique_witness :
  ∃ r,
    execute (web site_dup) (request "http://x.test/" 2 5) = Results r
    ∧ NoDup (urls_visited r).
Proof.
  destruct (execute (web site_dup) (request "http://x.test/" 2 5))
    as [r| |] eqn:He; [|vm_compute in He; discriminate..].
  exists r. split; [reflexivity|].
  exact (urls_visited_unique _ _ _ He).
Defined.

(** ** C7: breadth-first order *)

Lemma StronglySorted_lookup (l : list Z) i j x y :
  StronglySorted Z.le l →
  l !! i = Some x → l !! j = Some y → (i < j)%nat → x ≤ y.
Proof.
  intros Hl. revert i j.
  induction Hl as [|a l _ IH Ha]; intros i j Hi Hj Hij; [done|].
  destruct j as [|j]; [lia|]. simpl in Hj.
  destruct i as [|i]; simpl in Hi.
  - injection Hi as ->. rewrite Forall_forall in Ha.
    apply Ha. by eapply list_elem_of_lookup_2.
  - apply (IH i j); [done..|lia].
Qed.

(** C7: the results of a crawl come from a run of the loop, with the
    parsed seed URL as the base of its links, whose log
    lists the entries of [urls_visited] in order, each with the depth at
    which it was discovered: the depth of the frontier entry that was
    dequeued for it, which is the depth that [data] reports for a fetched
    page and the least depth of any frontier entry that the crawl ever
    holds for this URL.  Whenever an entry has a strictly smaller depth
    than another one, it stands before it in [urls_visited]. *)
Theorem urls_visited_breadth_first w p r :
  execute w p = Results r →
  ∃ parsed_url log st,
    urlparse w (param_url p) = Some parsed_url
    ∧ crawl_steps w p parsed_url log st
    ∧ st_results st = r
    ∧ log.*1 = urls_visited r
    ∧ (∀ pd, pd ∈ data r → (pd_url pd, pd_depth pd) ∈ log)
    ∧ (∀ log1 st1 u d d',
         crawl_steps w p parsed_url log1 st1 →
         (u, d') ∈ to_visit st1 → (u, d) ∈ log → d ≤ d')
    ∧ ∀ i j a b da db,
        log !! i = Some (a, da) → log !! j = Some (b, db) →
        da < db → (i < j)%nat.
Proof.
  intros (pu & log & st & (_ & _ & Hparse & _) & _ & Hsteps & Hc & <-)%execute_Results.
  exists pu, log, st.
  destruct (steps_visited _ _ _ _ _ _ _ _ Hsteps) as (_ & _ & Hlog).
  destruct (steps_data _ _ _ _ _ _ _ _ Hsteps) as (_ & Hdata).
  destruct (steps_order _ _ _ _ _ _ _ _ Hsteps) as (Hsorted & _).
  apply StronglySorted_app_1_l in Hsorted.
  split_and!; [done..| |].
  - intros log1 st1 u d d' Hsteps1 Hin Hu.
    destruct (steps_prefix _ _ _ _ _ _ _ _ _ _ Hsteps1 Hsteps Hc)
      as (log' & Hrest & ->).
    exact (steps_first_discovery _ _ _ _ _ _ _ _ _ _ _ _ _ Hsteps1 Hin Hrest Hu).
  - intros i j a b da db Hi Hj Hlt.
    destruct (decide (i < j)%nat) as [|Hij]; [done|exfalso].
    assert (Hi' : log.*2 !! i = Some da) by by rewrite list_lookup_fmap, Hi.
    assert (Hj' : log.*2 !! j = Some db) by by rewrite list_lookup_fmap, Hj.
    destruct (decide (i = j)) as [->|Hne]; [rewrite Hi' in Hj'; simplify_eq; lia|].
    pose proof (StronglySorted_lookup _ j i _ _ Hsorted Hj' Hi' ltac:(lia)). lia.
Qed.

Lemma urls_visited_breadth_first_witness :
  ∃ r parsed_url log st,
    execute (web site_dup) (request "http://x.test/" 2 5) = Results r
    ∧ urlparse (web site_dup) (param_url (request "http://x.test/" 2 5))
      = Some parsed_url
    ∧ crawl_steps (web site_dup) (request "http://x.test/" 2 5) parsed_url log st
    ∧ st_results st = r
    ∧ log.*1 = urls_visited r
    ∧ (∀ pd, pd ∈ data r → (pd_url pd, pd_depth pd) ∈ log)
    ∧ (∀ log1 st1 u d d',
         crawl_steps (web site_dup) (request "http://x.test/" 2 5)
           parsed_url log1 st1 →
         (u, d') ∈ to_visit st1 → (u, d) ∈ log → d ≤ d')
    ∧ ∀ i j a b da db,
        log !! i = Some (a, da) → log !! j = Some (b, db) →
        da < db → (i < j)%nat.
Proof.
  destruct (execute (web site_dup) (request "http://x.test/" 2 5))
    as [r| |] eqn:He; [|vm_compute in He; discriminate..].
  destruct (urls_visited_breadth_first _ _ _ He) as (pu & log & st & H).
  exists r, pu, log, st. split; [reflexivity|exact H].
Defined.

(** ** C8: a fetch that fails *)

(** C8, as stated, fails: the claim counts every status outside 2xx as a
    failed fetch.  [raise_for_status] raises for the statuses 4xx and 5xx
    only.  In the crawl of [site_300] the seed answers with status 300;
    its page is stored in [data] and counted, and its link is followed. *)
Lemma status_300_counterexample :
  ∃ soup r,
    http_get (web_of site_300) "http://x.test/p1" = GetReturns 300 (Some soup)
    ∧ execute (web_of site_300) (request "http://x.test/p1" 1 5) = Results r
    ∧ pages_scraped r = 2
    ∧ pd_url <$> data r = ["http://x.test/p1"; "http://x.test/p2"]%string
    ∧ urls_visited r = ["http://x.test/p1"; "http://x.test/p2"]%string.
Proof.
  do 2 eexists.
  split_and!; [reflexivity|vm_compute; reflexivity|reflexivity..].
Qed.

(** C8, amended: when the loop dequeues a URL that is not yet visited and
    its fetch raises a [RequestException] ([requests.get] raises one, for a
    transport failure or a timeout, or the response has a status 4xx or
    5xx), the iteration appends the URL to [urls_visited], leaves [data]
    and [pages_scraped] as they are, and the loop goes on with the rest of
    the frontier.  In the state in which the loop ends the URL is in
    [urls_visited] and has no entry in [data], and [pages_scraped] counts
    the recorded URLs whose fetch succeeded. *)
Theorem failed_fetch_recorded_not_scraped w p parsed_url log st u d rest :
  crawl_steps w p parsed_url log st →
  to_visit st = (u, d) :: rest →
  pages_scraped (st_results st) < param_max_pages p →
  u ∉ visited st →
  (http_get w u = GetRaises true
   ∨ ∃ status_code parsed,
       http_get w u = GetReturns status_code parsed
       ∧ 400 ≤ status_code < 600) →
  let st' :=
    {| st_results :=
         {| pages_scraped := pages_scraped (st_results st);
            data := data (st_results st);
            urls_visited := urls_visited (st_results st) ++ [u] |};
       visited := {[u]} ∪ visited st;
       to_visit := rest |} in
  body w (param_selectors p) (param_depth p) parsed_url st = Ok st'
  ∧ loop w (param_selectors p) (param_depth p) (param_max_pages p) parsed_url st
    = loop w (param_selectors p) (param_depth p) (param_max_pages p) parsed_url st'
  ∧ ∀ final,
      (loop w (param_selectors p) (param_depth p) (param_max_pages p)
         parsed_url st = Ok final) →
      u ∈ urls_visited (st_results final)
      ∧ (u ∉ pd_url <$> data (st_results final))
      ∧ pages_scraped (st_results final)
        = Z.of_nat (length (filter (fetched w) (urls_visited (st_results final)))).
Proof.
  intros Hsteps Hq Hlt Hv Hfail st'.
  assert (Hget : requests_get w u = RequestException).
  { unfold requests_get.
    destruct Hfail as [->|(status_code & parsed & -> & Hlo & Hhi)]; [done|].
    apply Z.leb_le in Hlo. apply Z.ltb_lt in Hhi. by rewrite Hlo, Hhi. }
  assert (Hb : body w (param_selectors p) (param_depth p) parsed_url st = Ok st').
  { unfold body. rewrite Hq, decide_False, Hget by done. reflexivity. }
  assert (Hc : cond (param_max_pages p) st = true).
  { apply cond_true. by rewrite Hq. }
  assert (Hloop :
    loop w (param_selectors p) (param_depth p) (param_max_pages p) parsed_url st
    = loop w (param_selectors p) (param_depth p) (param_max_pages p) parsed_url st').
  { by rewrite (loop_unfold _ _ _ _ _ st), Hc, Hb. }
  split_and!; [exact Hb|exact Hloop|].
  intros final Hfinal. rewrite Hloop in Hfinal.
  destruct (loop_Ok _ _ _ _ _ st' [] st' final (steps_refl _ _ _ _ _ _) Hfinal)
    as (log2 & Hsteps2 & _).
  pose proof (steps_snoc _ _ _ _ _ _ _ _ _ Hsteps Hc Hb) as Hsteps1.
  pose proof (steps_trans _ _ _ _ _ _ _ _ _ _ Hsteps1 Hsteps2) as Hrun.
  destruct (steps_visited _ _ _ _ _ _ _ _ Hrun) as (_ & _ & Hlog).
  destruct (steps_data _ _ _ _ _ _ _ _ Hrun) as (Hdata & _).
  destruct (steps_count _ _ _ _ _ _ _ _ Hrun) as (Hcount & _).
  split_and!.
  - rewrite <- Hlog. unfold dequeued. rewrite Hq, decide_False by done.
    rewrite !fmap_app. simpl. set_solver.
  - rewrite Hdata. intros [[soup Hsoup] _]%list_elem_of_filter. congruence.
  - by rewrite Hcount, <- Hdata, length_fmap.
Qed.

(** After the seed of [site_404] the frontier holds [/a], which answers
    with status 404, before [/b]: [/a] is recorded and not scraped, and
    [/b] is scraped after it. *)
Lemma failed_fetch_recorded_not_scraped_witness :
  ∃ st final,
    crawl_steps (web_of site_404) (request "http://x.test/" 1 5)
      {| scheme := "http"; netloc := "x.test" |} [("http://x.test/"%string, 0)] st
    ∧ to_visit st = [("http://x.test/a", 1); ("http://x.test/b", 1)]%string
    ∧ loop (web_of site_404) (param_selectors (request "http://x.test/" 1 5)) 1 5
        {| scheme := "http"; netloc := "x.test" |} st
      = Ok final
    ∧ pd_url <$> data (st_results final)
      = ["http://x.test/"; "http://x.test/b"]%string
    ∧ "http://x.test/a"%string ∈ urls_visited (st_results final)
    ∧ ("http://x.test/a"%string ∉ pd_url <$> data (st_results final))
    ∧ pages_scraped (st_results final)
      = Z.of_nat (length (filter (fetched (web_of site_404))
                            (urls_visited (st_results final)))).
Proof.
  set (w := web_of site_404).
  set (p := request "http://x.test/" 1 5).
  set (pu := {| scheme := "http"; netloc := "x.test" |}).
  destruct (body w (param_selectors p) (param_depth p) pu (initial (param_url p)))
    as [st|e] eqn:Hb; [|vm_compute in Hb; discriminate].
  assert (Hsteps : crawl_steps w p pu [("http://x.test/"%string, 0)] st).
  { exact (steps_snoc w (param_selectors p) (param_depth p) (param_max_pages p)
             pu (initial (param_url p)) [] (initial (param_url p)) st
             (steps_refl _ _ _ _ _ _) eq_refl Hb). }
  assert (Hq : to_visit st = [("http://x.test/a", 1); ("http://x.test/b", 1)]%string).
  { vm_compute in Hb. by injection Hb as <-. }
  assert (Hlt : pages_scraped (st_results st) < param_max_pages p).
  { vm_compute in Hb. by injection Hb as <-. }
  assert (Hv : "http://x.test/a"%string ∉ visited st).
  { vm_compute in Hb. injection Hb as <-. vm_compute. intros [=]. }
  destruct (loop w (param_selectors p) (param_depth p) (param_max_pages p) pu st)
    as [final|e] eqn:Hfinal;
    [|vm_compute in Hb; injection Hb as <-; vm_compute in Hfinal; discriminate].
  exists st, final.
  split; [exact Hsteps|]. split; [exact Hq|]. split; [exact Hfinal|]. split.
  - vm_compute in Hb. injection Hb as <-.
    vm_compute in Hfinal. by injection Hfinal as <-.
  - refine (proj2 (proj2 (failed_fetch_recorded_not_scraped w p pu _ st
      "http://x.test/a" 1 [("http://x.test/b"%string, 1)] Hsteps Hq Hlt Hv _))
      final Hfinal).
    right. exists 404, (Some (html "Not found" [] ["/c"%string])).
    split; [reflexivity|lia].
Defined.

(** ** C9: depth 0 *)

(** Outside the request contract: [max_pages = 0] is not rejected, the
    loop does not run and [urls_visited] is empty. *)
Lemma zero_budget_remark :
  ∃ r,
    param_depth (request "http://x.test/p1" 0 0) = 0
    ∧ execute (web site_x) (request "http://x.test/p1" 0 0) = Results r
    ∧ urls_visited r = [].
Proof.
  eexists. split_and!; [reflexivity|vm_compute; reflexivity|reflexivity].
Qed.

(** C9: for every crawl that passes validation (the seed is accepted, so
    that results are returned, and [max_pages] is positive) and has
    [depth = 0], [urls_visited] is exactly the seed URL, whether or not its
    fetch succeeds: no link is enqueued. *)
Theorem depth_zero_visits_seed_only w p r :
  param_depth p = 0 →
  1 ≤ param_max_pages p →
  execute w p = Results r →
  urls_visited r = [param_url p].
Proof.
  intros Hdepth Hmax (pu & log & st & _ & _ & Hsteps & Hc & <-)%execute_Results.
  assert (Hd0 : param_depth p ≤ 0) by lia.
  destruct (steps_no_expansion _ _ _ _ _ _ _ _ Hd0 Hsteps)
    as [[Hq Hu]|[_ Hu]]; [exfalso|done].
  apply cond_false in Hc as [Hc|Hc]; [congruence|].
  destruct (steps_count _ _ _ _ _ _ _ _ Hsteps) as (Hcount & _).
  destruct (steps_data _ _ _ _ _ _ _ _ Hsteps) as (Hdata & _).
  rewrite Hu in Hdata. simpl in Hdata.
  apply fmap_nil_inv in Hdata. rewrite Hdata in Hcount. simpl in Hcount. lia.
Qed.

Lemma depth_zero_visits_seed_only_witness :
  ∃ r,
    execute (web site_x) (request "http://x.test/p1" 0 5) = Results r
    ∧ urls_visited r = ["http://x.test/p1"%string].
Proof.
  destruct (execute (web site_x) (request "http://x.test/p1" 0 5))
    as [r| |] eqn:He; [|vm_compute in He; discriminate..].
  exists r. split; [reflexivity|].
  apply (depth_zero_visits_seed_only (web site_x) (request "http://x.test/p1" 0 5));
    [reflexivity|vm_compute; discriminate|exact He].
Defined.

(** ** C10: the depth bound *)

(** Whatever [depth] is, every entry that is ever in the frontier has a
    depth between 0 and [max(depth, 0)], and so has every page in the
    [data] of the results: the seed is enqueued at depth 0, and a child one
    level below its page only while that stays within [depth]. *)
Lemma depth_bounds w p :
  (∀ parsed_url log st u d,
     crawl_steps w p parsed_url log st →
     (u, d) ∈ to_visit st → 0 ≤ d ≤ Z.max 0 (param_depth p))
  ∧ (∀ r pd,
       execute w p = Results r →
       pd ∈ data r → 0 ≤ pd_depth pd ≤ Z.max 0 (param_depth p)).
Proof.
  split.
  - intros pu log st u d Hsteps Hin.
    apply (steps_depth _ _ _ _ _ _ _ _ Hsteps d), elem_of_app. left.
    by apply (list_elem_of_fmap_2 snd) in Hin.
  - intros r pd (pu & log & st & _ & _ & Hsteps & _ & <-)%execute_Results Hin.
    destruct (steps_data _ _ _ _ _ _ _ _ Hsteps) as (_ & Hlog).
    apply (steps_depth _ _ _ _ _ _ _ _ Hsteps (pd_depth pd)), elem_of_app. right.
    specialize (Hlog pd Hin). by apply (list_elem_of_fmap_2 snd) in Hlog.
Qed.

(** Outside the request contract: a negative [depth] is not checked, and
    the seed is still enqueued and stored in [data] at depth 0. *)
Lemma negative_depth_remark :
  ∃ r,
    execute (web site_x) (request "http://x.test/p1" (-1) 5) = Results r
    ∧ pd_depth <$> data r = [0].
Proof. eexists. split; [vm_compute; reflexivity|reflexivity]. Qed.

(** C10: for every crawl that passes validation ([depth] is not negative),
    every entry that is ever in the frontier of a run of the loop has a
    depth of at most [depth], and so has every page in the [data] of the
    results. *)
Theorem depth_bounded w p :
  0 ≤ param_depth p →
  (∀ parsed_url log st u d,
     crawl_steps w p parsed_url log st →
     (u, d) ∈ to_visit st → 0 ≤ d ≤ param_depth p)
  ∧ (∀ r pd,
       execute w p = Results r →
       pd ∈ data r → 0 ≤ pd_depth pd ≤ param_depth p).
Proof.
  intros Hdepth. split.
  - intros pu log st u d Hsteps Hin.
    assert (Hd : 0 ≤ d ≤ Z.max 0 (param_depth p)); [|lia].
    apply (steps_depth _ _ _ _ _ _ _ _ Hsteps d), elem_of_app. left.
    by apply (list_elem_of_fmap_2 snd) in Hin.
  - intros r pd (pu & log & st & _ & _ & Hsteps & _ & <-)%execute_Results Hin.
    destruct (steps_data _ _ _ _ _ _ _ _ Hsteps) as (_ & Hlog).
    assert (Hd : 0 ≤ pd_depth pd ≤ Z.max 0 (param_depth p)); [|lia].
    apply (steps_depth _ _ _ _ _ _ _ _ Hsteps (pd_depth pd)), elem_of_app. right.
    specialize (Hlog pd Hin). by apply (list_elem_of_fmap_2 snd) in Hlog.
Qed.

Lemma depth_bounded_witness :
  ∃ r st,
    crawl_steps (web site_dup) (request "http://x.test/" 2 5)
      {| scheme := "http"; netloc := "x.test" |}
      [("http://x.test/", 0); ("http://x.test/a", 1)]%string st
    ∧ to_visit st = [("http://x.test/b", 1); ("http://x.test/b", 2)]%string
    ∧ Forall (fun e => 0 ≤ e.2 ≤ 2) (to_visit st)
    ∧ execute (web site_dup) (request "http://x.test/" 2 5) = Results r
    ∧ Forall (fun pd => 0 ≤ pd_depth pd ≤ 2) (data r).
Proof.
  set (w := web site_dup).
  set (p := request "http://x.test/" 2 5).
  set (pu := {| scheme := "http"; netloc := "x.test" |}).
  assert (Hdepth : 0 ≤ param_depth p) by (vm_compute; discriminate).
  destruct (execute w p) as [r| |] eqn:He; [|vm_compute in He; discriminate..].
  assert (Hsteps : ∃ log st,
    crawl_steps w p pu log st
    ∧ log = [("http://x.test/", 0); ("http://x.test/a", 1)]%string
    ∧ to_visit st = [("http://x.test/b", 1); ("http://x.test/b", 2)]%string).
  { do 2 eexists. split_and!; [run_steps 2%nat|reflexivity..]. }
  destruct Hsteps as (log & st & Hsteps & -> & Hq). exists r, st.
  split_and!; [exact Hsteps|exact Hq| |reflexivity|].
  - apply Forall_forall. intros [u d] Hin.
    exact (proj1 (depth_bounded w p Hdepth) pu _ st u d Hsteps Hin).
  - apply Forall_forall. intros pd.
    exact (proj2 (depth_bounded w p Hdepth) r pd He).
Defined.

(** * Further properties of [execute] *)

Section MoreFacts.

Context (w : world) (selectors : list (string * string))
        (depth max_pages : Z) (parsed_url : ParseResult) (url : string).

Abbreviation Cond := (cond max_pages).
Abbreviation Body := (body w selectors depth parsed_url).
Abbreviation Loop := (loop w selectors depth max_pages parsed_url).
Abbreviation Steps := (steps w selectors depth max_pages parsed_url).

Ltac run_cases H :=
  induction H as [|log st st' Hsteps IH Hc Hb];
  [ simpl
  | apply body_Ok in Hb;
    apply cond_true in Hc as [Hne Hlt];
    destruct Hb as [u d rest Hq Hv
                   |u d rest Hq Hv Hget
                   |u d rest soup extracted Hq Hv Hget Hex];
    unfold dequeued; rewrite ?Hq;
    [ rewrite ?(decide_True _ _ Hv), ?app_nil_r
    | rewrite ?(decide_False _ _ Hv)
    | rewrite ?(decide_False _ _ Hv) ];
    simpl in * ].

(** The loop gives the same answer from every state of its run. *)
Lemma loop_steps st0 log st : Steps st0 log st → Loop st0 = Loop st.
Proof.
  induction 1 as [|log st st' _ IH Hc Hb]; [done|].
  by rewrite IH, (loop_unfold _ _ _ _ _ st), Hc, Hb.
Qed.

Lemma loop_stops st0 log st :
  Steps st0 log st → Cond st = false → Loop st0 = Ok st.
Proof.
  intros Hsteps Hc. rewrite (loop_steps _ _ _ Hsteps).
  by rewrite loop_unfold, Hc.
Qed.

Lemma elem_of_children v d links h e :
  (h, e) ∈ children parsed_url v d links ↔
  e = d + 1 ∧ (h ∉ v) ∧ ∃ href, href ∈ links ∧ h = resolve parsed_url href.
Proof.
  unfold children. rewrite list_elem_of_fmap. split.
  - intros (h' & [= -> ->] & [Hv (href & -> & Hin)%list_elem_of_fmap]%list_elem_of_filter).
    eauto.
  - intros (-> & Hv & href & Hin & ->). eexists. split; [done|].
    apply list_elem_of_filter. split; [done|]. by apply list_elem_of_fmap_2.
Qed.

(** Where the entries of the frontier and of the log come from: the seed,
    or a link on a page that was fetched one level above. *)
Definition linked_from (log : list (string * Z)) (e : string * Z) : Prop :=
  e = (url, 0)
  ∨ ∃ v soup href,
      (v, e.2 - 1) ∈ log
      ∧ requests_get w v = Response soup
      ∧ href ∈ find_all_a_href soup
      ∧ e.1 = resolve parsed_url href
      ∧ e.2 - 1 < depth.

Lemma linked_from_app log log' e :
  linked_from log e → linked_from (log ++ log') e.
Proof.
  intros [->|(v & soup & href & Hin & H)]; [by left|right].
  exists v, soup, href. split; [|done]. apply elem_of_app. by left.
Qed.

Lemma steps_linked log st :
  Steps (initial url) log st →
  ∀ e, e ∈ to_visit st ++ log → linked_from log e.
Proof.
  intros H. run_cases H.
  - intros e ->%list_elem_of_singleton. by left.
  - rewrite Hq in IH. intros e He. apply IH. set_solver.
  - rewrite Hq in IH. intros e He. apply linked_from_app, IH. set_solver.
  - rewrite Hq in IH. intros e He.
    rewrite <- !app_assoc in He.
    apply elem_of_app in He as [He|[He|He]%elem_of_app].
    + apply linked_from_app, IH. set_solver.
    + destruct (d <? depth) eqn:Hd; [|by apply not_elem_of_nil in He].
      destruct e as [h e]. apply elem_of_children in He as (-> & _ & href & Hin & ->).
      right. exists u, soup, href. simpl.
      replace (d + 1 - 1) with d by lia. apply Z.ltb_lt in Hd.
      split_and!; [set_solver|done..].
    + apply linked_from_app, IH. set_solver.
Qed.

(** Every link of a fetched page below [depth] is visited or waits in the
    frontier. *)
Lemma steps_links_kept log st :
  Steps (initial url) log st →
  ∀ v d soup href,
    (v, d) ∈ log → requests_get w v = Response soup → d < depth →
    href ∈ find_all_a_href soup →
    resolve parsed_url href ∈ visited st
    ∨ resolve parsed_url href ∈ (to_visit st).*1.
Proof.
  intros H. run_cases H.
  - intros v d soup href []%not_elem_of_nil.
  - intros v d0 soup href Hin Hg Hd Hh.
    destruct (IH v d0 soup href Hin Hg Hd Hh) as [?|Hq']; [by left|].
    rewrite Hq in Hq'. simpl in Hq'.
    apply elem_of_cons in Hq' as [->|?]; [by left|by right].
  - intros v d0 soup href [Hin|Hin%list_elem_of_singleton]%elem_of_app Hg Hd Hh;
      [|congruence].
    destruct (IH v d0 soup href Hin Hg Hd Hh) as [?|Hq']; [left; set_solver|].
    rewrite Hq in Hq'. simpl in Hq'.
    apply elem_of_cons in Hq' as [->|?]; [left; set_solver|by right].
  - intros v d0 soup0 href [Hin|Hin%list_elem_of_singleton]%elem_of_app Hg Hd Hh.
    + destruct (IH v d0 soup0 href Hin Hg Hd Hh) as [?|Hq']; [left; set_solver|].
      rewrite Hq in Hq'. simpl in Hq'.
      apply elem_of_cons in Hq' as [->|?]; [left; set_solver|right].
      rewrite fmap_app. set_solver.
    + injection Hin as -> ->. rewrite Hget in Hg. injection Hg as <-.
      apply Z.ltb_lt in Hd. rewrite Hd.
      destruct (decide (resolve parsed_url href ∈ {[u]} ∪ visited st)) as [?|Hn];
        [by left|right].
      rewrite fmap_app. apply elem_of_app. right.
      apply (list_elem_of_fmap_2' fst _ (resolve parsed_url href, d + 1)); [|done].
      apply elem_of_children. eauto.
Qed.

(** The first URL that is recorded is the seed. *)
Lemma steps_seed_first log st :
  Steps (initial url) log st →
  (st = initial url ∧ log = [])
  ∨ head (urls_visited (st_results st)) = Some url.
Proof.
  intros H. run_cases H.
  - by left.
  - destruct IH as [[-> ->]|IH]; [|by right].
    simpl in *. by apply not_elem_of_empty in Hv.
  - right. destruct IH as [[-> ->]|IH].
    + simpl in *. by injection Hq as -> _ _.
    + destruct (urls_visited (st_results st)); [done|by simpl in *].
  - right. destruct IH as [[-> ->]|IH].
    + simpl in *. by injection Hq as -> _ _.
    + destruct (urls_visited (st_results st)); [done|by simpl in *].
Qed.

(** The loop stops right behind the page that uses up the budget. *)
Lemma steps_budget_last log st :
  Steps (initial url) log st →
  pages_scraped (st_results st) < max_pages
  ∨ pages_scraped (st_results st) = 0
  ∨ (is_Some (last (data (st_results st)))
     ∧ last (urls_visited (st_results st))
       = pd_url <$> last (data (st_results st))).
Proof.
  intros H. run_cases H; [by right; left|by left..|].
  right. right. rewrite !last_snoc. split; [by eexists|done].
Qed.

(** [data] and [urls_visited] only grow. *)
Lemma steps_grow st0 log st :
  Steps st0 log st →
  urls_visited (st_results st0) `prefix_of` urls_visited (st_results st)
  ∧ data (st_results st0) `prefix_of` data (st_results st)
  ∧ pages_scraped (st_results st0) ≤ pages_scraped (st_results st).
Proof.
  intros H. run_cases H; [done|done|..].
  - destruct IH as (IHu & IHd & IHp). split_and!; [|done..].
    etrans; [done|]. by apply prefix_app_r.
  - destruct IH as (IHu & IHd & IHp). split_and!; [..|lia].
    + etrans; [done|]. by apply prefix_app_r.
    + etrans; [done|]. by apply prefix_app_r.
Qed.

(** Every page in [data] is the answer to the request for its URL, with
    the fields that [extract] reads from it. *)
Lemma steps_extracted log st :
  Steps (initial url) log st →
  ∀ pd, pd ∈ data (st_results st) →
    ∃ soup, requests_get w (pd_url pd) = Response soup
            ∧ extract soup selectors ∅ = Ok (pd_extracted pd).
Proof.
  intros H. run_cases H; [by intros pd []%not_elem_of_nil|done..|].
  intros pd [Hpd| ->%list_elem_of_singleton]%elem_of_app; [by apply IH|].
  by exists soup.
Qed.

(** The body never pops an empty frontier: what it raises comes from the
    fetch or from the extraction of the URL it dequeues. *)
Lemma body_Raise st e :
  Cond st = true → Body st = Raise e →
  ∃ u d rest,
    to_visit st = (u, d) :: rest ∧ (u ∉ visited st)
    ∧ ((e = UncaughtFetchError ∧ requests_get w u = OtherException)
       ∨ (e = SelectorSyntaxError
          ∧ ∃ soup, requests_get w u = Response soup
                    ∧ extract soup selectors ∅ = Raise SelectorSyntaxError)).
Proof.
  intros [Hne _]%cond_true. unfold body.
  destruct (to_visit st) as [|[u d] rest]; [done|].
  destruct (decide (u ∈ visited st)); [discriminate|].
  destruct (requests_get w u) as [| |soup] eqn:Hget; [discriminate| |].
  { intros [= <-]. exists u, d, rest. split_and!; [done..|by left]. }
  destruct (extract soup selectors ∅) as [|e'] eqn:Hex; [discriminate|].
  intros [= <-].
  assert (e' = SelectorSyntaxError) as ->.
  { clear -Hex. revert Hex. generalize (∅ : gmap string (list string)).
    induction selectors as [|[k s] items IH]; intros acc; simpl; [discriminate|].
    destruct (select soup s); [apply IH|by intros [= <-]]. }
  exists u, d, rest. split_and!; [done..|right]. split; [done|by exists soup].
Qed.

(** A larger budget allows every step of a smaller one. *)
Lemma steps_budget_mono max_pages' st0 log st :
  max_pages ≤ max_pages' →
  Steps st0 log st →
  steps w selectors depth max_pages' parsed_url st0 log st.
Proof.
  intros Hle. induction 1 as [|log st st' _ IH Hc Hb]; [apply steps_refl|].
  eapply steps_snoc; [done| |done].
  apply cond_true in Hc as [? ?]. apply cond_true. split; [done|lia].
Qed.

(** The body asks the network for the dequeued URL only. *)
Lemma body_agree w' st :
  (∀ u d, (u, d) ∈ dequeued st → requests_get w' u = requests_get w u) →
  body w' selectors depth parsed_url st = Body st.
Proof.
  unfold body, dequeued.
  destruct (to_visit st) as [|[u d] rest]; [done|].
  destruct (decide (u ∈ visited st)); [done|].
  intros Hagree. by rewrite (Hagree u d) by by left.
Qed.

Lemma steps_agree w' st0 log st :
  Steps st0 log st →
  (∀ u, u ∈ log.*1 → requests_get w' u = requests_get w u) →
  steps w' selectors depth max_pages parsed_url st0 log st.
Proof.
  induction 1 as [|log st st' _ IH Hc Hb]; intros Hagree; [apply steps_refl|].
  eapply steps_snoc; [|done|].
  - apply IH. intros u Hu. apply Hagree. rewrite fmap_app. set_solver.
  - rewrite body_agree; [done|]. intros u d Hu. apply Hagree.
    rewrite fmap_app. apply elem_of_app. right.
    by apply (list_elem_of_fmap_2' fst _ (u, d)).
Qed.

End MoreFacts.

(** ** Errors *)

(** X2: an exception in the loop body that is not a [RequestException]
    ends the crawl.  When the seed is accepted and a run of the loop
    dequeues, within the budget, a URL not yet visited on which
    [requests.get] or the parser raises such an exception, or whose page
    is fetched and makes a selector raise, [execute] answers with an
    execution error, whatever was scraped before. *)
Theorem uncaught_exception_aborts w p parsed_url log st u d rest :
  valid_seed w p parsed_url →
  crawl_steps w p parsed_url log st →
  to_visit st = (u, d) :: rest →
  pages_scraped (st_results st) < param_max_pages p →
  u ∉ visited st →
  (requests_get w u = OtherException
   ∨ ∃ soup e, requests_get w u = Response soup
               ∧ extract soup (param_selectors p) ∅ = Raise e) →
  execute w p = ExecutionError.
Proof.
  intros Hvalid Hsteps Hq Hlt Hv Hraise.
  rewrite (execute_valid _ _ _ Hvalid). unfold crawl.
  rewrite (loop_steps _ _ _ _ _ _ _ _ Hsteps), loop_unfold.
  replace (cond _ st) with true
    by (symmetry; apply cond_true; by rewrite Hq).
  unfold body. rewrite Hq, decide_False by done.
  destruct Hraise as [->|(soup & e & -> & ->)]; reflexivity.
Qed.

(** The seed of [site_bad_host] is scraped; the first link it gives makes
    [requests.get] raise, and the page scraped before is lost. *)
Lemma uncaught_exception_aborts_witness :
  ∃ st,
    crawl_steps (web_of site_bad_host) (request "http://x.test/" 1 5)
      {| scheme := "http"; netloc := "x.test" |} [("http://x.test/"%string, 0)] st
    ∧ pages_scraped (st_results st) = 1
    ∧ execute (web_of site_bad_host) (request "http://x.test/" 1 5)
      = ExecutionError.
Proof.
  set (w := web_of site_bad_host).
  set (p := request "http://x.test/" 1 5).
  set (pu := {| scheme := "http"; netloc := "x.test" |}).
  destruct (body w (param_selectors p) (param_depth p) pu (initial (param_url p)))
    as [st|e] eqn:Hb; [|vm_compute in Hb; discriminate].
  assert (Hsteps : crawl_steps w p pu [("http://x.test/"%string, 0)] st).
  { exact (steps_snoc w (param_selectors p) (param_depth p) (param_max_pages p)
             pu (initial (param_url p)) [] (initial (param_url p)) st
             (steps_refl _ _ _ _ _ _) eq_refl Hb). }
  exists st. split; [exact Hsteps|].
  split; [vm_compute in Hb; by injection Hb as <-|].
  apply (uncaught_exception_aborts w p pu [("http://x.test/"%string, 0)] st
           "http://x..test/" 1 [("http://x.test/ok"%string, 1)]).
  - unfold valid_seed.
    split_and!; [by eexists|by eexists|reflexivity|discriminate|discriminate].
  - exact Hsteps.
  - vm_compute in Hb. by injection Hb as <-.
  - vm_compute in Hb. by injection Hb as <-.
  - vm_compute in Hb. injection Hb as <-. vm_compute. intros [=].
  - left. reflexivity.
Defined.

(** X3: [to_visit.pop(0)] never raises: the condition of the [while] has
    found the frontier non-empty, so that no [IndexError] leaves the
    loop. *)
Theorem pop_never_raises w p parsed_url e :
  crawl w p parsed_url = Raise e → e ≠ IndexError.
Proof.
  unfold crawl. intros Hcrawl.
  eapply loop_Raise in Hcrawl as (log & st & _ & Hc & Hb); [|apply steps_refl].
  destruct (body_Raise _ _ _ _ _ _ _ Hc Hb)
    as (u & d & rest & _ & _ & [[-> _]|[-> _]]); discriminate.
Qed.

Lemma pop_never_raises_witness :
  ∃ e,
    crawl (web site_x)
      {| p_url := Some "http://x.test/p1"%string; p_depth := Some (IntValue 1);
         p_max_pages := Some (IntValue 5); p_selectors := Some [("title", "[")]%string |}
      {| scheme := "http"; netloc := "x.test" |} = Raise e
    ∧ e ≠ IndexError.
Proof.
  destruct (crawl (web site_x)
      {| p_url := Some "http://x.test/p1"%string; p_depth := Some (IntValue 1);
         p_max_pages := Some (IntValue 5); p_selectors := Some [("title", "[")]%string |}
      {| scheme := "http"; netloc := "x.test" |}) as [st|e] eqn:Hcrawl;
    [vm_compute in Hcrawl; discriminate|].
  exists e. split; [reflexivity|].
  exact (pop_never_raises _ _ _ _ Hcrawl).
Defined.

(** X4: a seed that cannot be fetched still gives a successful result:
    no page, and the seed as the only URL visited. *)
Theorem unreachable_seed w p parsed_url :
  valid_seed w p parsed_url →
  1 ≤ param_max_pages p →
  requests_get w (param_url p) = RequestException →
  execute w p
  = Results {| pages_scraped := 0; data := []; urls_visited := [param_url p] |}.
Proof.
  intros Hvalid Hmax Hget. rewrite (execute_valid _ _ _ Hvalid).
  unfold crawl. rewrite loop_unfold.
  replace (cond _ (initial _)) with true
    by (symmetry; apply cond_true; simpl; split; [done|lia]).
  unfold body. simpl. rewrite decide_False by apply not_elem_of_empty.
  rewrite Hget, loop_unfold.
  replace (cond _ _) with false by (symmetry; apply cond_false; by left).
  reflexivity.
Qed.

Lemma unreachable_seed_witness :
  execute (web []) (request "http://x.test/p1" 1 5)
  = Results {| pages_scraped := 0; data := [];
               urls_visited := ["http://x.test/p1"%string] |}.
Proof.
  apply (unreachable_seed (web []) (request "http://x.test/p1" 1 5)
           {| scheme := "http"; netloc := "x.test" |}).
  - unfold valid_seed. split_and!; [by eexists|by eexists|reflexivity|discriminate|discriminate].
  - vm_compute. discriminate.
  - reflexivity.
Defined.

(** ** What is visited *)

(** X5: with a budget of at least one page the seed is the first URL in
    [urls_visited]. *)
Theorem seed_visited_first w p r :
  1 ≤ param_max_pages p →
  execute w p = Results r →
  head (urls_visited r) = Some (param_url p).
Proof.
  intros Hmax (pu & log & st & _ & _ & Hsteps & Hc & <-)%execute_Results.
  destruct (steps_seed_first _ _ _ _ _ _ _ _ Hsteps) as [[-> _]|Hhead]; [|done].
  apply cond_false in Hc as [Hc|Hc]; [done|simpl in Hc; lia].
Qed.

Lemma seed_visited_first_witness :
  ∃ r,
    execute (web site_dup) (request "http://x.test/" 2 5) = Results r
    ∧ head (urls_visited r) = Some "http://x.test/"%string.
Proof.
  destruct (execute (web site_dup) (request "http://x.test/" 2 5))
    as [r| |] eqn:He; [|vm_compute in He; discriminate..].
  exists r. split; [reflexivity|].
  apply (seed_visited_first (web site_dup) (request "http://x.test/" 2 5));
    [vm_compute; discriminate|exact He].
Defined.

(** X6: nothing is visited that was not linked: every URL in
    [urls_visited] is the seed or the resolution, against the parsed seed,
    of an href on a page that the crawl visited and fetched. *)
Theorem visited_urls_are_linked w p r :
  execute w p = Results r →
  ∃ parsed_url,
    urlparse w (param_url p) = Some parsed_url
    ∧ ∀ u, u ∈ urls_visited r →
        u = param_url p
        ∨ ∃ v soup href,
            v ∈ urls_visited r
            ∧ requests_get w v = Response soup
            ∧ href ∈ find_all_a_href soup
            ∧ u = resolve parsed_url href.
Proof.
  intros (pu & log & st & (_ & _ & Hparse & _) & _ & Hsteps & _ & <-)%execute_Results.
  exists pu. split; [done|]. intros u Hu.
  destruct (steps_visited _ _ _ _ _ _ _ _ Hsteps) as (_ & _ & Hlog).
  rewrite <- Hlog in Hu |- *.
  apply list_elem_of_fmap in Hu as ([u' d] & -> & Hu).
  destruct (steps_linked _ _ _ _ _ _ _ _ Hsteps (u', d))
    as [[= -> ->]|(v & soup & href & Hv & Hget & Hhref & Hres & _)].
  - apply elem_of_app. by right.
  - by left.
  - right. exists v, soup, href. split_and!; [|done..].
    by apply (list_elem_of_fmap_2' fst _ (v, d - 1)).
Qed.

Lemma visited_urls_are_linked_witness :
  ∃ r parsed_url,
    execute (web site_dup) (request "http://x.test/" 2 5) = Results r
    ∧ urlparse (web site_dup) "http://x.test/" = Some parsed_url
    ∧ ∀ u, u ∈ urls_visited r →
        u = "http://x.test/"%string
        ∨ ∃ v soup href,
            v ∈ urls_visited r
            ∧ requests_get (web site_dup) v = Response soup
            ∧ href ∈ find_all_a_href soup
            ∧ u = resolve parsed_url href.
Proof.
  destruct (execute (web site_dup) (request "http://x.test/" 2 5))
    as [r| |] eqn:He; [|vm_compute in He; discriminate..].
  destruct (visited_urls_are_linked _ _ _ He) as (pu & H).
  exists r, pu. split; [reflexivity|exact H].
Defined.

(** X7: nothing within reach is left out while the budget lasts: when
    the crawl ends with [pages_scraped < max_pages], every href of every
    page in [data] whose depth is below [depth] has its resolution in
    [urls_visited]. *)
Theorem links_visited_within_budget w p r :
  execute w p = Results r →
  pages_scraped r < param_max_pages p →
  ∃ parsed_url,
    urlparse w (param_url p) = Some parsed_url
    ∧ ∀ pd soup href,
        pd ∈ data r → pd_depth pd < param_depth p →
        requests_get w (pd_url pd) = Response soup →
        href ∈ find_all_a_href soup →
        resolve parsed_url href ∈ urls_visited r.
Proof.
  intros (pu & log & st & (_ & _ & Hparse & _) & _ & Hsteps & Hc & <-)%execute_Results Hlt.
  exists pu. split; [done|]. intros pd soup href Hpd Hd Hget Hhref.
  apply cond_false in Hc as [Hq|Hc]; [|lia].
  destruct (steps_visited _ _ _ _ _ _ _ _ Hsteps) as (Hvis & _ & _).
  destruct (steps_data _ _ _ _ _ _ _ _ Hsteps) as (_ & Hdata).
  destruct (steps_links_kept _ _ _ _ _ _ _ _ Hsteps _ _ _ _
              (Hdata pd Hpd) Hget Hd Hhref) as [Hin|Hin].
  - rewrite Hvis in Hin. by apply elem_of_list_to_set in Hin.
  - rewrite Hq in Hin. by apply not_elem_of_nil in Hin.
Qed.

Lemma links_visited_within_budget_witness :
  ∃ r parsed_url,
    execute (web site_dup) (request "http://x.test/" 2 5) = Results r
    ∧ urlparse (web site_dup) "http://x.test/" = Some parsed_url
    ∧ ∀ pd soup href,
        pd ∈ data r → pd_depth pd < 2 →
        requests_get (web site_dup) (pd_url pd) = Response soup →
        href ∈ find_all_a_href soup →
        resolve parsed_url href ∈ urls_visited r.
Proof.
  destruct (execute (web site_dup) (request "http://x.test/" 2 5))
    as [r| |] eqn:He; [|vm_compute in He; discriminate..].
  assert (Hlt : pages_scraped r < param_max_pages (request "http://x.test/" 2 5)).
  { revert He. vm_compute. intros [= <-]. reflexivity. }
  destruct (links_visited_within_budget _ _ _ He Hlt) as (pu & H).
  exists r, pu. split; [reflexivity|exact H].
Defined.

(** X8: [data] holds exactly the visited URLs whose fetch succeeded, in
    the order of [urls_visited]. *)
Theorem data_lists_fetched_urls w p r :
  execute w p = Results r →
  pd_url <$> data r = filter (fetched w) (urls_visited r).
Proof.
  intros (pu & log & st & _ & _ & Hsteps & _ & <-)%execute_Results.
  by destruct (steps_data _ _ _ _ _ _ _ _ Hsteps) as (Hdata & _).
Qed.

Lemma data_lists_fetched_urls_witness :
  ∃ r,
    execute (web site_dup) (request "http://x.test/" 2 5) = Results r
    ∧ pd_url <$> data r = filter (fetched (web site_dup)) (urls_visited r).
Proof.
  destruct (execute (web site_dup) (request "http://x.test/" 2 5))
    as [r| |] eqn:He; [|vm_compute in He; discriminate..].
  exists r. split; [reflexivity|]. exact (data_lists_fetched_urls _ _ _ He).
Defined.

(** X9: when the budget is used up the crawl stops right behind the page
    that used it up: the last URL visited is the URL of the last page in
    [data]. *)
Theorem stops_behind_last_page w p r :
  1 ≤ param_max_pages p →
  execute w p = Results r →
  pages_scraped r = param_max_pages p →
  is_Some (last (data r))
  ∧ last (urls_visited r) = pd_url <$> last (data r).
Proof.
  intros Hmax (pu & log & st & _ & _ & Hsteps & _ & <-)%execute_Results Hp.
  destruct (steps_budget_last _ _ _ _ _ _ _ _ Hsteps) as [?|[?|?]]; [lia..|done].
Qed.

Lemma stops_behind_last_page_witness :
  ∃ r,
    execute (web site_three) (request "http://x.test/" 1 2) = Results r
    ∧ is_Some (last (data r))
    ∧ last (urls_visited r) = pd_url <$> last (data r).
Proof.
  destruct (execute (web site_three) (request "http://x.test/" 1 2))
    as [r| |] eqn:He; [|vm_compute in He; discriminate..].
  exists r. split; [reflexivity|].
  apply (stops_behind_last_page (web site_three) (request "http://x.test/" 1 2));
    [vm_compute; discriminate|exact He|].
  revert He. vm_compute. intros [= <-]. reflexivity.
Defined.

(** ** What a page contributes *)

Lemma extract_Ok soup items acc m :
  NoDup items.*1 →
  extract soup items acc = Ok m →
  dom m = dom acc ∪ list_to_set items.*1
  ∧ (∀ key selector, (key, selector) ∈ items →
       is_Some (select soup selector) ∧ m !! key = select soup selector)
  ∧ (∀ key, key ∉ items.*1 → m !! key = acc !! key).
Proof.
  revert acc. induction items as [|[k s] items IH]; intros acc Hnd; simpl.
  - intros [= <-]. split_and!; [set_solver| |done].
    by intros key selector []%not_elem_of_nil.
  - apply NoDup_cons in Hnd as [Hk Hnd].
    destruct (select soup s) as [texts|] eqn:Hsel; [|discriminate].
    intros (Hdom & Hitems & Hother)%IH; [|done].
    split_and!.
    + rewrite Hdom, dom_insert_L. set_solver.
    + intros key selector [[= -> ->]|Hin]%elem_of_cons.
      * rewrite Hsel. split; [by eexists|].
        by rewrite (Hother k Hk), lookup_insert_eq.
      * by apply Hitems.
    + intros key [Hne Hkey]%not_elem_of_cons.
      rewrite (Hother key Hkey). by apply lookup_insert_ne.
Qed.

(** X10: with distinct field names, every page in [data] is the page
    that answered the request for its URL, and its [extracted] maps each
    field name of the selectors, and nothing else, to what the selector of
    that field selects on the page. *)
Theorem extracted_fields w p r :
  NoDup (param_selectors p).*1 →
  execute w p = Results r →
  ∀ pd, pd ∈ data r →
    ∃ soup,
      requests_get w (pd_url pd) = Response soup
      ∧ dom (pd_extracted pd) = list_to_set (param_selectors p).*1
      ∧ ∀ key selector, (key, selector) ∈ param_selectors p →
          is_Some (select soup selector)
          ∧ pd_extracted pd !! key = select soup selector.
Proof.
  intros Hnd (pu & log & st & _ & _ & Hsteps & _ & <-)%execute_Results pd Hpd.
  destruct (steps_extracted _ _ _ _ _ _ _ _ Hsteps pd Hpd) as (soup & Hget & Hex).
  destruct (extract_Ok _ _ _ _ Hnd Hex) as (Hdom & Hitems & _).
  exists soup. split_and!; [done| |done].
  rewrite Hdom. set_solver.
Qed.

Lemma extracted_fields_witness :
  ∃ r,
    execute (web site_x) (request "http://x.test/p1" 1 5) = Results r
    ∧ ∀ pd, pd ∈ data r →
        ∃ soup,
          requests_get (web site_x) (pd_url pd) = Response soup
          ∧ dom (pd_extracted pd) = list_to_set ["title"; "content"]%string
          ∧ ∀ key selector,
              (key, selector) ∈ [("title", "title"); ("content", "p")]%string →
              is_Some (select soup selector)
              ∧ pd_extracted pd !! key = select soup selector.
Proof.
  destruct (execute (web site_x) (request "http://x.test/p1" 1 5))
    as [r| |] eqn:He; [|vm_compute in He; discriminate..].
  exists r. split; [reflexivity|].
  apply (extracted_fields (web site_x) (request "http://x.test/p1" 1 5));
    [|exact He].
  change (NoDup ["title"; "content"]%string).
  refine (bool_decide_unpack _ _). vm_compute. exact I.
Defined.

(** ** How crawls compare *)

(** X11: a larger page budget only continues the crawl: the
    [urls_visited] and the [data] of the smaller budget are the beginning
    of those of the larger one. *)
Theorem larger_budget_extends w p n r r' :
  param_max_pages p ≤ n →
  execute w p = Results r →
  execute w (with_max_pages p n) = Results r' →
  urls_visited r `prefix_of` urls_visited r'
  ∧ data r `prefix_of` data r'
  ∧ pages_scraped r ≤ pages_scraped r'.
Proof.
  intros Hle (pu & log & st & (_ & _ & Hparse & _) & _ & Hsteps & _ & <-)%execute_Results
    (pu' & log' & st' & (_ & _ & Hparse' & _) & _ & Hsteps' & Hc' & <-)%execute_Results.
  change (param_url (with_max_pages p n)) with (param_url p) in Hparse'.
  rewrite Hparse in Hparse'. injection Hparse' as <-.
  unfold crawl_steps in Hsteps, Hsteps'.
  change (param_url (with_max_pages p n)) with (param_url p) in Hsteps'.
  change (param_selectors (with_max_pages p n)) with (param_selectors p) in Hsteps'.
  change (param_depth (with_max_pages p n)) with (param_depth p) in Hsteps'.
  change (param_max_pages (with_max_pages p n)) with n in Hsteps', Hc'.
  apply (steps_budget_mono _ _ _ _ _ n) in Hsteps; [|done].
  destruct (steps_prefix _ _ _ _ _ _ _ _ _ _ Hsteps Hsteps' Hc')
    as (l & Hrest & _).
  exact (steps_grow _ _ _ _ _ _ _ _ Hrest).
Qed.

Lemma larger_budget_extends_witness :
  ∃ r r',
    execute (web site_three) (request "http://x.test/" 1 2) = Results r
    ∧ execute (web site_three) (request "http://x.test/" 1 4) = Results r'
    ∧ urls_visited r `prefix_of` urls_visited r'
    ∧ data r `prefix_of` data r'
    ∧ pages_scraped r ≤ pages_scraped r'.
Proof.
  destruct (execute (web site_three) (request "http://x.test/" 1 2))
    as [r| |] eqn:He; [|vm_compute in He; discriminate..].
  destruct (execute (web site_three) (request "http://x.test/" 1 4))
    as [r'| |] eqn:He'; [|vm_compute in He'; discriminate..].
  exists r, r'. split_and!; [reflexivity..| | |];
    apply (larger_budget_extends (web site_three)
             (request "http://x.test/" 1 2) 4 r r');
    first [exact He | exact He' | vm_compute; discriminate].
Defined.

(** X12: the result depends on the network only through the URLs in
    [urls_visited]: a world that parses the seed alike and answers alike on
    these URLs gives the same result, whatever it answers elsewhere. *)
Theorem only_visited_urls_matter w w' p r :
  urlparse w' (param_url p) = urlparse w (param_url p) →
  (∀ u, u ∈ urls_visited r → requests_get w' u = requests_get w u) →
  execute w p = Results r →
  execute w' p = Results r.
Proof.
  intros Hparse' Hagree
    (pu & log & st & (Hd & Hm & Hparse & Hs & Hn) & _ & Hsteps & Hc & <-)%execute_Results.
  assert (Hvalid' : valid_seed w' p pu).
  { unfold valid_seed. by rewrite Hparse'. }
  rewrite (execute_valid _ _ _ Hvalid'). unfold crawl.
  destruct (steps_visited _ _ _ _ _ _ _ _ Hsteps) as (_ & _ & Hlog).
  rewrite <- Hlog in Hagree.
  apply (steps_agree _ _ _ _ _ w') in Hsteps; [|done].
  by rewrite (loop_stops _ _ _ _ _ _ _ _ Hsteps Hc).
Qed.

Lemma only_visited_urls_matter_witness :
  ∃ r,
    execute (web site_x) (request "http://x.test/p1" 0 5) = Results r
    ∧ execute (web [("http://x.test/p1", html "P1" ["a"; "b"] ["/p2"])]%string)
        (request "http://x.test/p1" 0 5) = Results r.
Proof.
  destruct (execute (web site_x) (request "http://x.test/p1" 0 5))
    as [r| |] eqn:He; [|vm_compute in He; discriminate..].
  exists r. split; [reflexivity|].
  apply (only_visited_urls_matter (web site_x)
           (web [("http://x.test/p1", html "P1" ["a"; "b"] ["/p2"])]%string)
           (request "http://x.test/p1" 0 5) r); [reflexivity| |exact He].
  assert (Hu : urls_visited r = ["http://x.test/p1"%string]).
  { revert He. vm_compute. intros [= <-]. reflexivity. }
  rewrite Hu. intros u ->%list_elem_of_singleton. reflexivity.
Defined.

(** ** Link resolution *)

(** X13: [resolve] does not look at the page on which the link stands,
    nor at a leading slash: for a path that starts with neither [/],
    [http://] nor [https://], the root-relative href [/path] and the
    document-relative href [path] resolve to the same URL,
    [scheme://netloc/path]. *)
Theorem leading_slash_ignored parsed_url path :
  String.prefix "/" path = false →
  String.prefix "http://" path = false →
  String.prefix "https://" path = false →
  resolve parsed_url ("/" +:+ path) = resolve parsed_url path
  ∧ resolve parsed_url path
    = ((scheme parsed_url +:+ "://" +:+ netloc parsed_url) +:+ "/" +:+ path)%string.
Proof.
  intros Hslash Hhttp Hhttps. unfold resolve.
  rewrite Hslash, Hhttp, Hhttps. simpl. split; [|done].
  destruct path; reflexivity.
Qed.

Lemma leading_slash_ignored_witness :
  resolve {| scheme := "http"; netloc := "x.test" |} ("/" +:+ "p2")
  = resolve {| scheme := "http"; netloc := "x.test" |} "p2"
  ∧ resolve {| scheme := "http"; netloc := "x.test" |} "p2"
    = "http://x.test/p2"%string.
Proof.
  apply (leading_slash_ignored {| scheme := "http"; netloc := "x.test" |} "p2");
    reflexivity.
Defined.

(** * The task runner: [task_runner.py]

    [execute_task] dispatches a parsed task on its intent, and
    [api_execute_task] and [get_task] keep the results in the dictionary
    [tasks].  The values come from JSON ([response.json()], [json.load]).
    [time.time()], [str.lower()] and the [str()] of an f-string are taken
    from the environment. *)

Module TaskRunner.

#[warnings="-register-all"]
Inductive json :=
| JNull
| JBool (b : bool)
| JInt (n : Z)
| JFloat (repr : string)
| JString (s : string)
| JArray (items : list json)
| JObject (members : gmap string json).

(** [type(v).__name__], as it stands in the message of an
    [AttributeError]. *)
Definition type_name (v : json) : string :=
  match v with
  | JNull => "NoneType"
  | JBool _ => "bool"
  | JInt _ => "int"
  | JFloat _ => "float"
  | JString _ => "str"
  | JArray _ => "list"
  | JObject _ => "dict"
  end.

Definition attribute_error (v : json) (attr : string) : string :=
  "'" +:+ type_name v +:+ "' object has no attribute '" +:+ attr +:+ "'".

(** [v.get(key, default)]: defined on a dict only; otherwise the message
    of the [AttributeError]. *)
Definition get (v : json) (key : string) (fallback : json) : string + json :=
  match v with
  | JObject members => inr (default fallback (members !! key))
  | _ => inl (attribute_error v "get")
  end.

(** What [requests.post] to the parser gives: an exception, or a status
    code and the body that [response.json()] decodes ([None] when it
    raises). *)
Inductive reply :=
| PostRaises
| Reply (status_code : Z) (body : option json).

Inductive http (A : Type) :=
| Http200 (a : A)
| HttpError (status : Z).
Arguments Http200 {A} a.
Arguments HttpError {A} status.

Section Runner.

Context {time : Type}.
Context (str_lower : string → string) (str : json → string).

Record task_result := {
  success : bool;
  screenshots : list json;
  errors : list string;
  taskType : string;
  timestamp : time;
  data : option (gmap string string)
}.

(** [result.update({'data': ...})] *)
Definition update_data (r : task_result) (d : gmap string string) : task_result :=
  {| success := success r; screenshots := screenshots r; errors := errors r;
     taskType := taskType r; timestamp := timestamp r; data := Some d |}.

(** The three placeholder handlers: [parameters.get(key, default)] put
    into a sentence. *)
Definition sample_task (field sentence key fallback : string)
    (parameters : json) : string + gmap string string :=
  match get parameters key (JString fallback) with
  | inl error => inl error
  | inr v => inr {[ field := sentence +:+ str v ]}
  end.

Definition execute_web_scrape_task : json → string + gmap string string :=
  sample_task "scraped_content" "Sample scraped content from " "url" "unknown".

Definition execute_data_analysis_task : json → string + gmap string string :=
  sample_task "analysis_result" "Sample analysis of " "dataset" "unknown_dataset".

Definition execute_image_processing_task : json → string + gmap string string :=
  sample_task "processed_image" "Sample processed image from " "image_url" "unknown".

(** The [except] branch of [execute_task]. *)
Definition task_error (now : time) (error : string) : task_result :=
  {| success := false; screenshots := []; errors := [error];
     taskType := "python_task"; timestamp := now; data := None |}.

Definition execute_task (now : time) (task : json) : task_result :=
  match get task "intent" (JString "") with
  | inl error => task_error now error
  | inr (JString s) =>
      let intent := str_lower s in
      match get task "parameters" (JObject ∅) with
      | inl error => task_error now error
      | inr parameters =>
          let result :=
            {| success := true; screenshots := []; errors := [];
               taskType := "python_" +:+ intent; timestamp := now;
               data := None |} in
          let handled (r : string + gmap string string) :=
            match r with
            | inl error => task_error now error
            | inr d => update_data result d
            end in
          if String.eqb intent "web_scrape" then
            handled (execute_web_scrape_task parameters)
          else if String.eqb intent "data_analysis" then
            handled (execute_data_analysis_task parameters)
          else if String.eqb intent "image_processing" then
            handled (execute_image_processing_task parameters)
          else
            {| success := false; screenshots := [];
               errors := ["Unknown Python task intent: " +:+ intent];
               taskType := "python_" +:+ intent; timestamp := now;
               data := Some {[ "message" :=
                 "This intent is not implemented in the Python agent" ]} |}
      end
  | inr v => task_error now (attribute_error v "lower")
  end.

(** ** The registry *)

Record task_record := {
  input : string;
  parsed_task : json;
  status : string;
  result : task_result
}.

Record task_response := {
  resp_status : string;
  resp_task_id : string;
  resp_result : task_result
}.

(** [POST /task/execute] *)
Definition api_execute_task (tasks : gmap string task_record)
    (now : time) (request_input : string) (r : reply)
    : http task_response * gmap string task_record :=
  match r with
  | PostRaises => (HttpError 500, tasks)
  | Reply status_code body =>
      if negb (status_code =? 200) then (HttpError 500, tasks)
      else
        match body with
        | None => (HttpError 500, tasks)
        | Some parsed =>
            let task_id := pretty (size tasks + 1)%nat in
            let res := execute_task now parsed in
            (Http200 {| resp_status := "success"; resp_task_id := task_id;
                        resp_result := res |},
             <[task_id := {| input := request_input; parsed_task := parsed;
                             status := "completed"; result := res |}]> tasks)
        end
  end.

(** [GET /task/{task_id}] *)
Definition get_task (tasks : gmap string task_record) (task_id : string)
    : http task_record :=
  match tasks !! task_id with
  | Some t => Http200 t
  | None => HttpError 404
  end.

(** The registry after a series of [POST /task/execute], starting from
    [tasks = {}]. *)
Definition serve (requests : list (time * string * reply))
    : gmap string task_record :=
  fold_left (fun tasks '(now, request_input, r) =>
               (api_execute_task tasks now request_input r).2)
    requests ∅.

(** The parser answered with status 200 and a body that decodes. *)
Definition is_parsed (r : reply) : bool :=
  match r with
  | Reply status_code (Some _) => status_code =? 200
  | _ => false
  end.

Definition known_intents : list string :=
  ["web_scrape"; "data_analysis"; "image_processing"].

(** ** Properties of [execute_task] *)

(** X14: [execute_task] reports success exactly when the task is a JSON
    object whose intent is a string that [lower()] turns into one of the
    three known intents, and whose parameters are absent or a JSON object.
    A missing intent, an intent or a task of another type, and parameters
    of another type all give [success = False]. *)
Theorem execute_task_success_iff now task :
  success (execute_task now task) = true ↔
  ∃ members s,
    task = JObject members
    ∧ default (JString "") (members !! "intent"%string) = JString s
    ∧ str_lower s ∈ known_intents
    ∧ ∃ parameters,
        default (JObject ∅) (members !! "parameters"%string) = JObject parameters.
Proof.
  unfold execute_task, known_intents. split.
  - destruct task as [| | | | |items|members]; simpl; try discriminate.
    destruct (default (JString "") (members !! "intent"%string))
      as [| | | |s|items|m] eqn:Hintent; simpl; try discriminate.
    destruct (default (JObject ∅) (members !! "parameters"%string))
      as [| | | |s'|items|parameters] eqn:Hpar; simpl.
    all: unfold execute_web_scrape_task, execute_data_analysis_task,
           execute_image_processing_task, sample_task; simpl.
    all: destruct (String.eqb_spec (str_lower s) "web_scrape") as [He1|];
           [|destruct (String.eqb_spec (str_lower s) "data_analysis") as [He2|];
             [|destruct (String.eqb_spec (str_lower s) "image_processing") as [He3|]]];
           simpl; try discriminate.
    all: intros _; exists members, s; split_and!; [done|done| |by eexists].
    all: first [rewrite He1|rewrite He2|rewrite He3]; set_solver.
  - intros (members & s & -> & Hintent & Hknown & parameters & Hpar). simpl.
    rewrite Hintent, Hpar.
    unfold execute_web_scrape_task, execute_data_analysis_task,
      execute_image_processing_task, sample_task. simpl.
    repeat (apply elem_of_cons in Hknown as [->|Hknown]; [done|]).
    by apply not_elem_of_nil in Hknown.
Qed.

(** X15: a result of [execute_task] reports success exactly when its
    list of errors is empty; a failure carries exactly one error message,
    and a success carries [data]. *)
Theorem execute_task_errors now task :
  (success (execute_task now task) = true ↔ errors (execute_task now task) = [])
  ∧ (success (execute_task now task) = false ↔
       length (errors (execute_task now task)) = 1%nat)
  ∧ (success (execute_task now task) = true →
       is_Some (data (execute_task now task))).
Proof.
  unfold execute_task.
  destruct task as [| | | | |items|members]; simpl; try by split_and!.
  destruct (default (JString "") (members !! "intent"%string))
    as [| | | |s|items|m]; simpl; try by split_and!.
  unfold execute_web_scrape_task, execute_data_analysis_task,
    execute_image_processing_task, sample_task.
  destruct (default (JObject ∅) (members !! "parameters"%string)); simpl;
    repeat case_match; simpl; by split_and!.
Qed.

(** ** Properties of the registry *)

Lemma pretty_fresh n (tasks : gmap string task_record) :
  dom tasks = list_to_set (pretty <$> seq 1 n) →
  tasks !! pretty (n + 1)%nat = None.
Proof.
  intros Hdom. apply not_elem_of_dom. rewrite Hdom.
  intros (k & Hk%(inj pretty) & Hin%elem_of_seq)%elem_of_list_to_set%list_elem_of_fmap.
  lia.
Qed.

Lemma serve_snoc requests now request_input r :
  serve (requests ++ [(now, request_input, r)])
  = (api_execute_task (serve requests) now request_input r).2.
Proof. unfold serve. by rewrite fold_left_app. Qed.

(** X16: task ids are handed out in sequence: after any series of
    requests the keys of [tasks] are exactly ["1"], ..., ["n"], where [n]
    is the number of requests that the parser answered; a request that
    fails stores nothing. *)
Theorem serve_ids requests :
  size (serve requests) = length (filter (fun q => is_parsed q.2) requests)
  ∧ dom (serve requests)
    = list_to_set (pretty <$> seq 1 (size (serve requests))).
Proof.
  induction requests as [|[[now request_input] r] requests IH] using rev_ind.
  { split; [done|]. unfold serve. simpl. by rewrite dom_empty_L. }
  destruct IH as [IHsize IHdom].
  rewrite serve_snoc, filter_app, length_app, filter_cons. simpl.
  unfold api_execute_task.
  destruct r as [|code [body|]]; simpl;
    [split; [lia|done]|destruct (code =? 200); simpl..];
    try (split; [lia|done]).
  pose proof (pretty_fresh _ _ IHdom) as Hfresh.
  rewrite map_size_insert_None by done. split; [lia|].
  rewrite dom_insert_L, IHdom, seq_S, fmap_app, list_to_set_app_L. simpl.
  replace (1 + size (serve requests))%nat with (size (serve requests) + 1)%nat by lia.
  set_solver.
Qed.

(** X17: a request that is stored gets a fresh id: before the call
    [GET /task/{id}] answers 404 for it, afterwards it answers with the
    record of this request (its input, status [completed] and the result
    returned to the caller), and every task stored before is still
    answered with the same record. *)
Theorem api_execute_task_stores requests now request_input r resp tasks' :
  api_execute_task (serve requests) now request_input r = (Http200 resp, tasks') →
  get_task (serve requests) (resp_task_id resp) = HttpError 404
  ∧ get_task tasks' (resp_task_id resp)
    = Http200 {| input := request_input;
                 parsed_task := match r with
                                | Reply _ (Some body) => body
                                | _ => JNull
                                end;
                 status := "completed";
                 result := resp_result resp |}
  ∧ ∀ task_id t,
      get_task (serve requests) task_id = Http200 t →
      get_task tasks' task_id = Http200 t.
Proof.
  destruct (serve_ids requests) as [_ Hdom].
  pose proof (pretty_fresh _ _ Hdom) as Hfresh.
  unfold api_execute_task.
  destruct r as [|code [body|]]; [discriminate|destruct (code =? 200); simpl..];
    try discriminate.
  intros [= <- <-]. simpl. unfold get_task.
  rewrite Hfresh, lookup_insert_eq. split_and!; [done..|].
  intros task_id t. destruct (decide (task_id = pretty (size (serve requests) + 1)%nat))
    as [->|Hne].
  - by rewrite Hfresh.
  - by rewrite lookup_insert_ne.
Qed.

End Runner.

Example execute_task_web_scrape :
  let r := execute_task (string_map lower)
             (fun v => match v with JString s => s | _ => type_name v end) 0%nat
             (JObject {[ "intent"%string := JString "Web_Scrape";
                         "parameters"%string :=
                           JObject {[ "url"%string := JString "http://x.test/" ]} ]}) in
  success r = true
  ∧ taskType r = "python_web_scrape"%string
  ∧ data r = Some {[ "scraped_content"%string :=
                       "Sample scraped content from http://x.test/"%string ]}.
Proof. vm_compute. split_and!; reflexivity. Qed.

Lemma api_execute_task_stores_witness :
  ∃ resp tasks',
    api_execute_task (string_map lower) type_name
      (serve (string_map lower) type_name
         [(1%nat, "scrape x.test"%string,
           Reply 200 (Some (JObject {[ "intent"%string := JString "WEB_SCRAPE" ]})));
          (2%nat, "bad"%string, Reply 502 None)])
      3%nat "analyse"%string
      (Reply 200 (Some (JObject {[ "intent"%string := JString "data_analysis" ]})))
    = (Http200 resp, tasks')
    ∧ resp_task_id resp = "2"%string
    ∧ get_task tasks' "2"
      = Http200 {| input := "analyse";
                   parsed_task := JObject {[ "intent"%string := JString "data_analysis" ]};
                   status := "completed";
                   result := resp_result resp |}.
Proof.
  eexists _, _. split; [reflexivity|]. split; [reflexivity|].
  exact (proj1 (proj2 (api_execute_task_stores (string_map lower) type_name
    [(1%nat, "scrape x.test"%string,
      Reply 200 (Some (JObject {[ "intent"%string := JString "WEB_SCRAPE" ]})));
     (2%nat, "bad"%string, Reply 502 None)]
    3%nat "analyse"%string
    (Reply 200 (Some (JObject {[ "intent"%string := JString "data_analysis" ]})))
    _ _ eq_refl))).
Defined.

End TaskRunner.
